(** * KaGen: generator base class, factory checks, facade control flow

    A shallow embedding of the parts of KaGen that its specification makes
    claims about:

    - [src/kagen/generators/generator.cpp]: the [Generator] base class with its
      two adapter subclasses, and the chunk-count checks of [GeneratorFactory];
    - [src/kagen/facade.cpp]: the error and validation paths of [Generate];
    - [src/library/kagen.cpp]: the option-string parser;
    - [src/app/tools/chkgraph.cpp]: [ComputeRange].

    Unsigned 64-bit values ([SInt]) are integers of [Z] with every
    wrap-around written out; process ids ([PEID], a C [int]) are integers
    of [Z] as well. *)

From Stdlib Require Import ZArith Lia Bool Ascii.
From stdpp Require Import base list sorting strings gmap.

Local Open Scope Z_scope.

(** ** Machine integers *)

Module Machine.

Definition SInt_modulus : Z := 2 ^ 64.
Definition PEID_bound : Z := 2 ^ 31.
Definition SSInt_min : Z := - 2 ^ 63.
Definition SSInt_max : Z := 2 ^ 63 - 1.

(** Reduction of an integer to an [unsigned long long]. *)
Definition wrap64 (z : Z) : Z := z mod SInt_modulus.

(** [static_cast<SInt>(x)] for a signed [x], and the implicit conversion
    of an [int] or [long long] operand meeting an [SInt] one. *)
Definition to_SInt (z : Z) : Z := wrap64 z.

Definition is_SInt (z : Z) : Prop := 0 <= z < SInt_modulus.
Definition is_PEID (z : Z) : Prop := - PEID_bound <= z < PEID_bound.

End Machine.
Import Machine.

(** ** [ComputeRange] (src/app/tools/chkgraph.cpp) *)

Module ChkGraph.

Definition ComputeRange (n size rank : Z) : Z * Z :=
  let chunk := n / to_SInt size in
  let rem := n mod to_SInt size in
  let from := wrap64 (wrap64 (to_SInt rank * chunk) + Z.min (to_SInt rank) rem) in
  let to :=
    Z.min (wrap64 (from + (if to_SInt rank <? rem then wrap64 (chunk + 1) else chunk))) n in
  (from, to).

(** Membership of a vertex in a half-open range. *)
Definition in_range (r : Z * Z) (v : Z) : Prop := r.1 <= v < r.2.

(** The boundary between the vertices of ranks below [r] and the others,
    without wrap-around. *)
Definition boundary (n size r : Z) : Z := r * (n / size) + Z.min r (n mod size).

End ChkGraph.

(** ** The graph data model (kagen/definitions.h is not part of the sources
    at hand; the types are the ones the code under study uses) *)

Module Model.

Inductive GraphRepresentation : Set := EDGE_LIST | CSR.

Abbreviation VertexRange := (Z * Z)%type.
Abbreviation Edge := (Z * Z)%type.
Abbreviation Edgelist := (list (Z * Z)).
Abbreviation XadjArray := (list Z).
Abbreviation AdjncyArray := (list Z).
Abbreviation VertexWeights := (list Z).
Abbreviation EdgeWeights := (list Z).
Abbreviation Coordinates2D HPFloat := (list (HPFloat * HPFloat)).
Abbreviation Coordinates3D HPFloat := (list (HPFloat * HPFloat * HPFloat)).
Abbreviation Coordinates HPFloat :=
  (list (HPFloat * HPFloat) * list (HPFloat * HPFloat * HPFloat))%type.

Section WithFloat.
(** The floating-point type of the coordinates is left open. *)
Context {HPFloat : Type}.

Record Graph : Type := mkGraph {
  vertex_range : VertexRange;
  representation : GraphRepresentation;
  edges : Edgelist;
  xadj : XadjArray;
  adjncy : AdjncyArray;
  vertex_weights : VertexWeights;
  edge_weights : EdgeWeights;
  coordinates : Coordinates HPFloat
}.

End WithFloat.
Global Arguments Graph : clear implicits.

End Model.
Import Model.

(** ** The converter (kagen/tools/converter.h) *)

Module Converter.

(** Number of local vertices of a range. *)
Definition local_vertex_count (range : VertexRange) : nat :=
  Z.to_nat (range.2 - range.1).

(** Local index of the tail of an edge, [tail - range.first] on [SInt]. *)
Definition local_tail (range : VertexRange) (e : Edge) : Z :=
  wrap64 (e.1 - range.1).

(** The edges of local vertex [i], in the order of the edge list. *)
Definition edges_of (range : VertexRange) (edges : Edgelist) (i : nat) : Edgelist :=
  filter (fun e => local_tail range e = Z.of_nat i) edges.

(** Offsets of consecutive slices of the given sizes: [0; d0; d0 + d1; ...]. *)
Fixpoint offsets (start : Z) (sizes : list nat) : list Z :=
  match sizes with
  | [] => [start]
  | d :: sizes' => start :: offsets (start + Z.of_nat d) sizes'
  end.

(** Modelled from the spec: [BuildCSRFromEdgeList] of kagen/tools/converter.h,
    whose body is not among the sources. It groups the edges by local tail
    vertex ([tail - range.first]); [xadj] has one entry per local vertex plus
    one, starts at 0 and ends at the size of [adjncy]; within the slice of a
    vertex the neighbours keep the order of the edge list; nothing is
    deduplicated. *)
Definition BuildCSRFromEdgeList (range : VertexRange) (edges : Edgelist)
    (edge_weights : EdgeWeights) : XadjArray * AdjncyArray :=
  let slices := map (edges_of range edges) (seq 0 (local_vertex_count range)) in
  (offsets 0 (map length slices), (concat slices).*2).

(** Modelled from the spec: [BuildEdgeListFromCSR] of kagen/tools/converter.h,
    whose body is not among the sources. For local vertex [i] it emits one
    edge [(range.first + i, adjncy[j])] for each [j] in
    [[xadj[i], xadj[i+1])]. *)
Definition BuildEdgeListFromCSR (range : VertexRange) (xadj : XadjArray)
    (adjncy : AdjncyArray) : Edgelist :=
  concat
    (map
       (fun i : nat =>
          let lo := Z.to_nat (xadj !!! i) in
          let hi := Z.to_nat (xadj !!! S i) in
          map (fun j : nat => (wrap64 (range.1 + Z.of_nat i), adjncy !!! j))
            (seq lo (hi - lo)))
       (seq 0 (local_vertex_count range))).

(** The edge list grouped by tail vertex, every group in input order. *)
Definition grouped_by_tail (range : VertexRange) (edges : Edgelist) : Edgelist :=
  concat (map (edges_of range edges) (seq 0 (local_vertex_count range))).

(** A range and an edge list as the converter expects them. *)
Definition valid_input (range : VertexRange) (edges : Edgelist) : Prop :=
  0 <= range.1 /\ range.1 <= range.2 /\ range.2 < SInt_modulus
  /\ Forall (fun e : Edge => range.1 <= e.1 < range.2) edges.

End Converter.
Import Converter.

(** ** The generator base class (src/kagen/generators/generator.cpp) *)

Module Gen.

(** [std::sort] on edges compares pairs lexicographically. *)
Definition edge_le (a b : Edge) : Prop := a.1 < b.1 \/ (a.1 = b.1 /\ a.2 <= b.2).
Definition edge_lt (a b : Edge) : Prop := a.1 < b.1 \/ (a.1 = b.1 /\ a.2 < b.2).

#[global] Instance edge_le_dec (a b : Edge) : Decision (edge_le a b).
Proof. unfold edge_le. apply _. Defined.

#[global] Instance edge_lt_dec (a b : Edge) : Decision (edge_lt a b).
Proof. unfold edge_lt. apply _. Defined.

(** [std::sort(first, last)]: the order of the pairs is total and two pairs
    that compare equal are the same pair, so the sorted sequence does not
    depend on the sorting algorithm. *)
Definition std_sort (l : Edgelist) : Edgelist := merge_sort edge_le l.

(** [std::unique(first, last)] followed by [erase]: of every run of equal
    neighbours the first one is kept. *)
Fixpoint unique_from (x : Edge) (l : Edgelist) : Edgelist :=
  match l with
  | [] => [x]
  | y :: l' => if decide (x = y) then unique_from x l' else x :: unique_from y l'
  end.

Definition std_unique (l : Edgelist) : Edgelist :=
  match l with
  | [] => []
  | x :: l' => unique_from x l'
  end.

Section WithFloat.
Context {HPFloat : Type}.
(** [D] holds the data members of the concrete graph family, [MPI_Comm]
    stands for the communicator handle. *)
Context {D : Type} {MPI_Comm : Type}.

(** The data members of [Generator]. *)
Record Generator : Type := mkGenerator {
  vertex_range_ : VertexRange;
  representation_ : GraphRepresentation;
  edges_ : Edgelist;
  xadj_ : XadjArray;
  adjncy_ : AdjncyArray;
  vertex_weights_ : VertexWeights;
  edge_weights_ : EdgeWeights;
  coordinates_ : Coordinates HPFloat;
  family_ : D
}.

Definition set_representation (r : GraphRepresentation) (g : Generator) : Generator :=
  mkGenerator (vertex_range_ g) r (edges_ g) (xadj_ g) (adjncy_ g)
    (vertex_weights_ g) (edge_weights_ g) (coordinates_ g) (family_ g).

Definition set_edges (e : Edgelist) (g : Generator) : Generator :=
  mkGenerator (vertex_range_ g) (representation_ g) e (xadj_ g) (adjncy_ g)
    (vertex_weights_ g) (edge_weights_ g) (coordinates_ g) (family_ g).

Definition set_csr (x : XadjArray) (a : AdjncyArray) (g : Generator) : Generator :=
  mkGenerator (vertex_range_ g) (representation_ g) (edges_ g) x a
    (vertex_weights_ g) (edge_weights_ g) (coordinates_ g) (family_ g).

(** The virtual member functions a generator class provides. *)
Class Virtuals : Type := mkVirtuals {
  GenerateEdgeList : Generator -> Generator;
  GenerateCSR : Generator -> Generator;
  FinalizeEdgeList : MPI_Comm -> Generator -> Generator;
  FinalizeCSR : MPI_Comm -> Generator -> Generator
}.

Definition Reset (g : Generator) : Generator :=
  mkGenerator (vertex_range_ g) (representation_ g) [] [] [] [] [] ([], []) (family_ g).

Definition Generate {V : Virtuals} (representation : GraphRepresentation)
    (g : Generator) : Generator :=
  let g := Reset g in
  let g := set_representation representation g in
  match representation_ g with
  | EDGE_LIST => GenerateEdgeList g
  | CSR => GenerateCSR g
  end.

Definition Finalize {V : Virtuals} (comm : MPI_Comm) (g : Generator) : Generator :=
  match representation_ g with
  | EDGE_LIST => FinalizeEdgeList comm g
  | CSR => FinalizeCSR comm g
  end.

(** [Generator::FinalizeEdgeList] and [Generator::FinalizeCSR]. *)
Definition Generator_FinalizeEdgeList (comm : MPI_Comm) (g : Generator) : Generator := g.
Definition Generator_FinalizeCSR (comm : MPI_Comm) (g : Generator) : Generator := g.

(** [CSROnlyGenerator]: the family provides [GenerateCSR] and [FinalizeCSR]. *)
Definition CSROnlyGenerator_FinalizeEdgeList
    (family_FinalizeCSR : MPI_Comm -> Generator -> Generator)
    (comm : MPI_Comm) (g : Generator) : Generator :=
  match xadj_ g with
  | [] => g
  | _ :: _ =>
      let g := family_FinalizeCSR comm g in
      set_edges (BuildEdgeListFromCSR (vertex_range_ g) (xadj_ g) (adjncy_ g)) g
  end.

Definition CSROnlyGenerator
    (family_GenerateCSR : Generator -> Generator)
    (family_FinalizeCSR : MPI_Comm -> Generator -> Generator) : Virtuals :=
  {| GenerateEdgeList := family_GenerateCSR;
     GenerateCSR := family_GenerateCSR;
     FinalizeEdgeList := CSROnlyGenerator_FinalizeEdgeList family_FinalizeCSR;
     FinalizeCSR := family_FinalizeCSR |}.

(** [EdgeListOnlyGenerator]: the family provides [GenerateEdgeList] and
    [FinalizeEdgeList]. *)
Definition EdgeListOnlyGenerator_FinalizeCSR
    (family_FinalizeEdgeList : MPI_Comm -> Generator -> Generator)
    (comm : MPI_Comm) (g : Generator) : Generator :=
  match xadj_ g with
  | _ :: _ => g
  | [] =>
      let g := family_FinalizeEdgeList comm g in
      let csr := BuildCSRFromEdgeList (vertex_range_ g) (edges_ g) (edge_weights_ g) in
      set_csr csr.1 csr.2 g
  end.

Definition EdgeListOnlyGenerator
    (family_GenerateEdgeList : Generator -> Generator)
    (family_FinalizeEdgeList : MPI_Comm -> Generator -> Generator) : Virtuals :=
  {| GenerateEdgeList := family_GenerateEdgeList;
     GenerateCSR := family_GenerateEdgeList;
     FinalizeEdgeList := family_FinalizeEdgeList;
     FinalizeCSR := EdgeListOnlyGenerator_FinalizeCSR family_FinalizeEdgeList |}.

Definition GetNumberOfEdges (g : Generator) : Z :=
  Z.max (Z.of_nat (length (adjncy_ g))) (Z.of_nat (length (edges_ g))).

(** [Take] returns the graph and leaves the generator with every buffer moved
    from; the range and the tag are copied. *)
Definition Take (g : Generator) : Graph HPFloat * Generator :=
  (mkGraph (vertex_range_ g) (representation_ g) (edges_ g) (xadj_ g) (adjncy_ g)
     (vertex_weights_ g) (edge_weights_ g) (coordinates_ g),
   mkGenerator (vertex_range_ g) (representation_ g) [] [] [] [] [] ([], []) (family_ g)).

Definition SetVertexRange (vertex_range : VertexRange) (g : Generator) : Generator :=
  mkGenerator vertex_range (representation_ g) (edges_ g) (xadj_ g) (adjncy_ g)
    (vertex_weights_ g) (edge_weights_ g) (coordinates_ g) (family_ g).

Definition FilterDuplicateEdges (g : Generator) : Generator :=
  set_edges (std_unique (std_sort (edges_ g))) g.

(** The buffers of a generator or of a graph are all empty. *)
Definition buffers_empty (g : Generator) : Prop :=
  edges_ g = [] /\ xadj_ g = [] /\ adjncy_ g = [] /\ vertex_weights_ g = []
  /\ edge_weights_ g = [] /\ (coordinates_ g).1 = [] /\ (coordinates_ g).2 = [].

Definition graph_buffers_empty (g : Graph HPFloat) : Prop :=
  edges g = [] /\ xadj g = [] /\ adjncy g = [] /\ vertex_weights g = []
  /\ edge_weights g = [] /\ (coordinates g).1 = [] /\ (coordinates g).2 = [].

(** The graph [Take] builds from the data members. *)
Definition graph_of (g : Generator) : Graph HPFloat :=
  mkGraph (vertex_range_ g) (representation_ g) (edges_ g) (xadj_ g) (adjncy_ g)
    (vertex_weights_ g) (edge_weights_ g) (coordinates_ g).

(** A generator that holds nothing: no buffer and no vertex. *)
Definition state_empty (g : Generator) : Prop :=
  buffers_empty g /\ (vertex_range_ g).1 = (vertex_range_ g).2.

(** A graph without vertices and with empty buffers. *)
Definition graph_empty (g : Graph HPFloat) : Prop :=
  graph_buffers_empty g /\ (vertex_range g).1 = (vertex_range g).2.

(** Exactly one representation is populated: the edge list is non-empty
    and the CSR pair is empty, or the other way round. *)
Definition exactly_one_populated (g : Graph HPFloat) : Prop :=
  (edges g <> [] /\ xadj g = [] /\ adjncy g = [])
  \/ (xadj g <> [] /\ adjncy g <> [] /\ edges g = []).

End WithFloat.
Global Arguments Generator : clear implicits.
Global Arguments Virtuals : clear implicits.

(** Two small families, one for each adapter class, over the local range
    [0, 2): both produce the edges [(0, 1)] and [(1, 0)]. *)
Definition Pair_GenerateEdgeList (g : Generator unit unit) : Generator unit unit :=
  set_edges [(0, 1); (1, 0)] (SetVertexRange (0, 2) g).

Definition Pair_GenerateCSR (g : Generator unit unit) : Generator unit unit :=
  set_csr [0; 1; 2] [1; 0] (SetVertexRange (0, 2) g).

Definition PairEdgeList : Virtuals unit unit unit :=
  EdgeListOnlyGenerator Pair_GenerateEdgeList Generator_FinalizeEdgeList.

Definition PairCSR : Virtuals unit unit unit :=
  CSROnlyGenerator Pair_GenerateCSR Generator_FinalizeCSR.

(** A generator as a constructor leaves it. *)
Definition fresh : Generator unit unit :=
  mkGenerator (0, 0) EDGE_LIST [] [] [] [] [] ([], []) tt.

End Gen.

(** ** The generator configuration (kagen/context.h is not part of the
    sources at hand; the record has the members the code under study reads
    or writes) *)

Module Ctx.

Inductive GeneratorType : Set :=
  | GNM_DIRECTED | GNM_UNDIRECTED | GNP_DIRECTED | GNP_UNDIRECTED
  | RGG_2D | RGG_3D | RDG_2D | RDG_3D | GRID_2D | GRID_3D
  | BA | KRONECKER | RHG | RMAT | IMAGE_MESH.

Inductive StatisticsLevel : Set := NONE | BASIC | ADVANCED.

Definition StatisticsLevel_rank (l : StatisticsLevel) : Z :=
  match l with NONE => 0 | BASIC => 1 | ADVANCED => 2 end.

Section WithFloat.
Context {HPFloat : Type}.

Record PGeneratorConfig : Type := mkConfig {
  generator : GeneratorType;
  n : Z;
  m : Z;
  k : Z;
  p : HPFloat;
  r : HPFloat;
  plexp : HPFloat;
  periodic : bool;
  avg_degree : HPFloat;
  min_degree : Z;
  grid_x : Z;
  grid_y : Z;
  grid_z : Z;
  rmat_a : HPFloat;
  rmat_b : HPFloat;
  rmat_c : HPFloat;
  coordinates : bool;
  quiet : bool;
  print_header : bool;
  validate_simple_graph : bool;
  skip_postprocessing : bool;
  statistics_level : StatisticsLevel
}.

Definition set_generator (v : GeneratorType) (c : PGeneratorConfig) : PGeneratorConfig :=
  mkConfig v (n c) (m c) (k c) (p c) (r c) (plexp c) (periodic c) (avg_degree c)
    (min_degree c) (grid_x c) (grid_y c) (grid_z c) (rmat_a c) (rmat_b c) (rmat_c c)
    (coordinates c) (quiet c) (print_header c) (validate_simple_graph c)
    (skip_postprocessing c) (statistics_level c).

Definition set_n (v : Z) (c : PGeneratorConfig) : PGeneratorConfig :=
  mkConfig (generator c) v (m c) (k c) (p c) (r c) (plexp c) (periodic c) (avg_degree
    c) (min_degree c) (grid_x c) (grid_y c) (grid_z c) (rmat_a c) (rmat_b c) (rmat_c c)
    (coordinates c) (quiet c) (print_header c) (validate_simple_graph c)
    (skip_postprocessing c) (statistics_level c).

Definition set_m (v : Z) (c : PGeneratorConfig) : PGeneratorConfig :=
  mkConfig (generator c) (n c) v (k c) (p c) (r c) (plexp c) (periodic c) (avg_degree
    c) (min_degree c) (grid_x c) (grid_y c) (grid_z c) (rmat_a c) (rmat_b c) (rmat_c c)
    (coordinates c) (quiet c) (print_header c) (validate_simple_graph c)
    (skip_postprocessing c) (statistics_level c).

Definition set_k (v : Z) (c : PGeneratorConfig) : PGeneratorConfig :=
  mkConfig (generator c) (n c) (m c) v (p c) (r c) (plexp c) (periodic c) (avg_degree
    c) (min_degree c) (grid_x c) (grid_y c) (grid_z c) (rmat_a c) (rmat_b c) (rmat_c c)
    (coordinates c) (quiet c) (print_header c) (validate_simple_graph c)
    (skip_postprocessing c) (statistics_level c).

Definition set_p (v : HPFloat) (c : PGeneratorConfig) : PGeneratorConfig :=
  mkConfig (generator c) (n c) (m c) (k c) v (r c) (plexp c) (periodic c) (avg_degree
    c) (min_degree c) (grid_x c) (grid_y c) (grid_z c) (rmat_a c) (rmat_b c) (rmat_c c)
    (coordinates c) (quiet c) (print_header c) (validate_simple_graph c)
    (skip_postprocessing c) (statistics_level c).

Definition set_r (v : HPFloat) (c : PGeneratorConfig) : PGeneratorConfig :=
  mkConfig (generator c) (n c) (m c) (k c) (p c) v (plexp c) (periodic c) (avg_degree
    c) (min_degree c) (grid_x c) (grid_y c) (grid_z c) (rmat_a c) (rmat_b c) (rmat_c c)
    (coordinates c) (quiet c) (print_header c) (validate_simple_graph c)
    (skip_postprocessing c) (statistics_level c).

Definition set_plexp (v : HPFloat) (c : PGeneratorConfig) : PGeneratorConfig :=
  mkConfig (generator c) (n c) (m c) (k c) (p c) (r c) v (periodic c) (avg_degree c)
    (min_degree c) (grid_x c) (grid_y c) (grid_z c) (rmat_a c) (rmat_b c) (rmat_c c)
    (coordinates c) (quiet c) (print_header c) (validate_simple_graph c)
    (skip_postprocessing c) (statistics_level c).

Definition set_periodic (v : bool) (c : PGeneratorConfig) : PGeneratorConfig :=
  mkConfig (generator c) (n c) (m c) (k c) (p c) (r c) (plexp c) v (avg_degree c)
    (min_degree c) (grid_x c) (grid_y c) (grid_z c) (rmat_a c) (rmat_b c) (rmat_c c)
    (coordinates c) (quiet c) (print_header c) (validate_simple_graph c)
    (skip_postprocessing c) (statistics_level c).

Definition set_avg_degree (v : HPFloat) (c : PGeneratorConfig) : PGeneratorConfig :=
  mkConfig (generator c) (n c) (m c) (k c) (p c) (r c) (plexp c) (periodic c) v
    (min_degree c) (grid_x c) (grid_y c) (grid_z c) (rmat_a c) (rmat_b c) (rmat_c c)
    (coordinates c) (quiet c) (print_header c) (validate_simple_graph c)
    (skip_postprocessing c) (statistics_level c).

Definition set_min_degree (v : Z) (c : PGeneratorConfig) : PGeneratorConfig :=
  mkConfig (generator c) (n c) (m c) (k c) (p c) (r c) (plexp c) (periodic c)
    (avg_degree c) v (grid_x c) (grid_y c) (grid_z c) (rmat_a c) (rmat_b c) (rmat_c c)
    (coordinates c) (quiet c) (print_header c) (validate_simple_graph c)
    (skip_postprocessing c) (statistics_level c).

Definition set_grid_x (v : Z) (c : PGeneratorConfig) : PGeneratorConfig :=
  mkConfig (generator c) (n c) (m c) (k c) (p c) (r c) (plexp c) (periodic c)
    (avg_degree c) (min_degree c) v (grid_y c) (grid_z c) (rmat_a c) (rmat_b c) (rmat_c
    c) (coordinates c) (quiet c) (print_header c) (validate_simple_graph c)
    (skip_postprocessing c) (statistics_level c).

Definition set_grid_y (v : Z) (c : PGeneratorConfig) : PGeneratorConfig :=
  mkConfig (generator c) (n c) (m c) (k c) (p c) (r c) (plexp c) (periodic c)
    (avg_degree c) (min_degree c) (grid_x c) v (grid_z c) (rmat_a c) (rmat_b c) (rmat_c
    c) (coordinates c) (quiet c) (print_header c) (validate_simple_graph c)
    (skip_postprocessing c) (statistics_level c).

Definition set_grid_z (v : Z) (c : PGeneratorConfig) : PGeneratorConfig :=
  mkConfig (generator c) (n c) (m c) (k c) (p c) (r c) (plexp c) (periodic c)
    (avg_degree c) (min_degree c) (grid_x c) (grid_y c) v (rmat_a c) (rmat_b c) (rmat_c
    c) (coordinates c) (quiet c) (print_header c) (validate_simple_graph c)
    (skip_postprocessing c) (statistics_level c).

Definition set_rmat_a (v : HPFloat) (c : PGeneratorConfig) : PGeneratorConfig :=
  mkConfig (generator c) (n c) (m c) (k c) (p c) (r c) (plexp c) (periodic c)
    (avg_degree c) (min_degree c) (grid_x c) (grid_y c) (grid_z c) v (rmat_b c) (rmat_c
    c) (coordinates c) (quiet c) (print_header c) (validate_simple_graph c)
    (skip_postprocessing c) (statistics_level c).

Definition set_rmat_b (v : HPFloat) (c : PGeneratorConfig) : PGeneratorConfig :=
  mkConfig (generator c) (n c) (m c) (k c) (p c) (r c) (plexp c) (periodic c)
    (avg_degree c) (min_degree c) (grid_x c) (grid_y c) (grid_z c) (rmat_a c) v (rmat_c
    c) (coordinates c) (quiet c) (print_header c) (validate_simple_graph c)
    (skip_postprocessing c) (statistics_level c).

Definition set_rmat_c (v : HPFloat) (c : PGeneratorConfig) : PGeneratorConfig :=
  mkConfig (generator c) (n c) (m c) (k c) (p c) (r c) (plexp c) (periodic c)
    (avg_degree c) (min_degree c) (grid_x c) (grid_y c) (grid_z c) (rmat_a c) (rmat_b c)
    v (coordinates c) (quiet c) (print_header c) (validate_simple_graph c)
    (skip_postprocessing c) (statistics_level c).

Definition set_coordinates (v : bool) (c : PGeneratorConfig) : PGeneratorConfig :=
  mkConfig (generator c) (n c) (m c) (k c) (p c) (r c) (plexp c) (periodic c)
    (avg_degree c) (min_degree c) (grid_x c) (grid_y c) (grid_z c) (rmat_a c) (rmat_b c)
    (rmat_c c) v (quiet c) (print_header c) (validate_simple_graph c)
    (skip_postprocessing c) (statistics_level c).

End WithFloat.
Global Arguments PGeneratorConfig : clear implicits.

End Ctx.

(** ** Exceptions and results *)

Module Exn.

(** The exceptions the code under study throws or lets through. *)
Inductive exn : Type :=
  | ConfigurationError (what : string)
  | runtime_error (what : string)
  | invalid_argument (what : string)
  | out_of_range (what : string)
  | undefined_behaviour (what : string).
(** [undefined_behaviour] is no exception of the program: it marks an
    operation the language leaves undefined (a shift by 64 bits or more). *)

Definition what (e : exn) : string :=
  match e with
  | ConfigurationError w | runtime_error w | invalid_argument w | out_of_range w
  | undefined_behaviour w => w
  end.

(** A computation returns a value or throws. *)
Inductive result (A : Type) : Type :=
  | Ok (a : A)
  | Throw (e : exn).
Global Arguments Ok {A} a.
Global Arguments Throw {A} e.

Definition bind {A B : Type} (x : result A) (f : A -> result B) : result B :=
  match x with
  | Ok a => f a
  | Throw e => Throw e
  end.

End Exn.
Import Exn.

#[global] Instance result_ret : MRet result := @Ok.
#[global] Instance result_bind : MBind result := fun A B f x => Exn.bind x f.
#[global] Instance result_fmap : FMap result := fun A B f x => Exn.bind x (fun a => Ok (f a)).

(** ** The generator factory (src/kagen/generators/generator.cpp) *)

Module Factory.

Section WithFloat.
Context {HPFloat : Type}.
Local Abbreviation PGeneratorConfig := (Ctx.PGeneratorConfig HPFloat).

(** [GeneratorFactory::NormalizeParameters], the version of the base class. *)
Definition NormalizeParameters (config : PGeneratorConfig) (rank size : Z)
    (output : bool) : result PGeneratorConfig :=
  if Ctx.k config =? 0 then Ok (Ctx.set_k (to_SInt size) config) else Ok config.

Definition IsPowerOfTwo (value : Z) : bool :=
  Z.land value (wrap64 (value - 1)) =? 0.

(** [std::round(std::sqrt(value))] converted to [SInt]: the integer nearest
    to the square root. The double-precision computation is embedded at its
    exact value. On a perfect square below [2^64] the conversion to double
    and the rounded root together are off by less than [2^-20], so that
    [std::round] yields the exact root; on any other value whichever
    neighbouring integer comes out, its square differs from the value. So
    [IsSquare] below returns what the compiled code returns. *)
Definition round_sqrt (value : Z) : Z :=
  let s := Z.sqrt value in
  if value - s * s <=? s then s else s + 1.

Definition IsSquare (value : Z) : bool :=
  let root := round_sqrt value in
  wrap64 (root * root) =? value.

(** The loop of [FindSquareMultipleOf]; [fuel] counts the values [cur] has
    yet to take, and the loop is left when it reaches [value]. *)
Fixpoint FindSquareMultipleOf_loop (fuel : nat) (cur value : Z) : Z :=
  match fuel with
  | O => wrap64 (value * value)
  | S fuel' =>
      if cur <? value then
        let squared := wrap64 (cur * cur) in
        if squared mod value =? 0 then squared
        else FindSquareMultipleOf_loop fuel' (wrap64 (cur + 1)) value
      else wrap64 (value * value)
  end.

(** [const SInt root = std::sqrt(value)] truncates the root; the function
    is called with a process count, and on values below [2^52] the
    double-precision root truncates to the integer square root. *)
Definition FindSquareMultipleOf (value : Z) : Z :=
  if IsSquare value then value
  else if IsPowerOfTwo value then wrap64 (2 * value)
  else
    let root := Z.sqrt value in
    FindSquareMultipleOf_loop (Z.to_nat (value - root)) root value.

Definition EnsurePowerOfTwoCommunicatorSize (config : PGeneratorConfig) (size : Z)
    : result PGeneratorConfig :=
  if negb (IsPowerOfTwo (to_SInt size))
  then Throw (ConfigurationError "number of PEs must be a power of two")
  else Ok config.

Definition EnsureSquareChunkSize (config : PGeneratorConfig) (size : Z)
    : result PGeneratorConfig :=
  if Ctx.k config =? 0 then
    Ok (Ctx.set_k (FindSquareMultipleOf (to_SInt size)) config)
  else if negb (IsSquare (Ctx.k config)) then
    Throw (ConfigurationError "number of chunks must be square")
  else Ok config.

Definition EnsureOneChunkPerPE (config : PGeneratorConfig) (size : Z)
    : result PGeneratorConfig :=
  if negb (Ctx.k config =? to_SInt size)
  then Throw (ConfigurationError "number of chunks must match the number of PEs")
  else Ok config.

(** The interface of a generator factory, as far as [Generate] of the
    facade uses it before a generator exists. *)
Class GeneratorFactory : Type := mkFactory {
  factory_NormalizeParameters : PGeneratorConfig -> Z -> bool -> result PGeneratorConfig
}.

(** The base class as a factory. *)
Definition BaseFactory : GeneratorFactory :=
  {| factory_NormalizeParameters := fun config size output =>
       NormalizeParameters config 0 size output |}.

(** An example of a family with square chunks: its factory insists on a
    square chunk count and otherwise normalises as the base class does. *)
Definition SquareChunkFactory : GeneratorFactory :=
  {| factory_NormalizeParameters := fun config size output =>
       config ← EnsureSquareChunkSize config size;
       NormalizeParameters config 0 size output |}.

End WithFloat.
Global Arguments GeneratorFactory : clear implicits.

End Factory.

(** ** The facade (src/kagen/facade.cpp) *)

Module Facade.

Inductive stream : Set := cout | cerr.

(** The character [\n] as a string. *)
Definition newline : string := String (Ascii.ascii_of_nat 10) EmptyString.

Section WithFloat.
Context {HPFloat : Type}.
Local Abbreviation PGeneratorConfig := (Ctx.PGeneratorConfig HPFloat).

(** What a process writes. Fixed texts are the strings of the source;
    texts with numbers in them keep the numbers. *)
Inductive message : Type :=
  | Header (config : PGeneratorConfig)
  | Text (s : string)
  | FinalizeChange (before after : Z)
  | GenerationTook.

(** What a process does that another component can see. *)
Inductive action : Type :=
  | Print (to : stream) (m : message)
  | CreateGenerator (config : PGeneratorConfig) (rank size : Z)
  | PrintBasicStatistics (output : bool)
  | PrintAdvancedStatistics (output : bool).

(** How the call ends on a process: it returns, [std::exit(code)] ends the
    process, or an exception leaves [Generate]. *)
Inductive completion (A : Type) : Type :=
  | Returned (a : A)
  | Exited (code : Z)
  | Propagated (e : exn).

(** The communicator as one process sees it: its rank, the size, and what
    the other processes contribute to the two reductions of [Generate]. *)
Record Comm : Type := mkComm {
  comm_rank : Z;
  comm_size : Z;
  peers_edges_before : list Z;
  peers_edges_after : list Z;
  peers_success : list bool
}.

(** [MPI_Reduce(.., MPI_SUM, ROOT, comm)] as the root receives it. *)
Definition MPI_Reduce_SUM (mine : Z) (peers : list Z) : Z :=
  wrap64 (foldr Z.add mine peers).

(** [MPI_Allreduce(MPI_IN_PLACE, &flag, 1, MPI_C_BOOL, MPI_LOR, comm)]: every
    process receives the disjunction of the flags of all processes. *)
Definition MPI_Allreduce_LOR (mine : bool) (peers : list bool) : bool :=
  foldr orb mine peers.

(** The collaborators of [Generate] that are not among the sources: the
    generator the factory creates, with the member functions the facade
    calls, and the validator. *)
Class Collaborators : Type := mkCollaborators {
  generator : Type;
  Create : PGeneratorConfig -> Z -> Z -> generator;
  generator_Generate : generator -> generator;
  generator_Finalize : Comm -> generator -> generator;
  generator_GetEdges : generator -> Edgelist;
  generator_TakeResult : generator -> Graph HPFloat;
  ValidateSimpleGraph : Edgelist -> VertexRange -> Comm -> bool
}.

Context (ROOT : Z).
Context {factory : Factory.GeneratorFactory HPFloat} {collaborators : Collaborators}.

Definition when (b : bool) (l : list action) : list action := if b then l else [].

(** [Generate(config_template, comm)] on one process: the actions in the
    order they happen, and how the call ends. *)
Definition Generate (config_template : PGeneratorConfig) (comm : Comm)
    : list action * completion (Graph HPFloat) :=
  let rank := comm_rank comm in
  let size := comm_size comm in
  let output_error := rank =? ROOT in
  let output_info := (rank =? ROOT) && negb (Ctx.quiet config_template) in
  let t := when (output_info && Ctx.print_header config_template)
             [Print cout (Header config_template)] in
  match Factory.factory_NormalizeParameters config_template size output_info with
  | Throw (ConfigurationError w) =>
      (t ++ when output_error
              [Print cerr (Text ("Error: " +:+ w +:+ newline))],
       Exited _ 1)
  | Throw e => (t, Propagated _ e)
  | Ok config =>
      let t := t ++ when output_info [Print cout (Text "Generating graph ...")] in
      let t := t ++ [CreateGenerator config rank size] in
      let generator := Create config rank size in
      let generator := generator_Generate generator in
      let num_edges_before_finalize := Z.of_nat (length (generator_GetEdges generator)) in
      let t := t ++ when (negb (Ctx.skip_postprocessing config) && output_info)
                      [Print cout (Text "Finalizing ...")] in
      let generator :=
        if negb (Ctx.skip_postprocessing config)
        then generator_Finalize comm generator else generator in
      let num_edges_after_finalize := Z.of_nat (length (generator_GetEdges generator)) in
      let t := t ++ when (negb (Ctx.skip_postprocessing config) && negb (Ctx.quiet config)
                          && output_info)
                      [Print cout
                         (FinalizeChange
                            (MPI_Reduce_SUM num_edges_before_finalize (peers_edges_before comm))
                            (MPI_Reduce_SUM num_edges_after_finalize (peers_edges_after comm)))] in
      let graph := generator_TakeResult generator in
      let statistics :=
        when (negb (Ctx.quiet config))
          (when output_info [Print cout GenerationTook]
           ++ when (Ctx.StatisticsLevel_rank Ctx.BASIC
                    <=? Ctx.StatisticsLevel_rank (Ctx.statistics_level config))
                [PrintBasicStatistics (rank =? ROOT)]
           ++ when (Ctx.StatisticsLevel_rank Ctx.ADVANCED
                    <=? Ctx.StatisticsLevel_rank (Ctx.statistics_level config))
                [PrintAdvancedStatistics (rank =? ROOT)]) in
      if Ctx.validate_simple_graph config then
        let t := t ++ when output_info [Print cout (Text "Validating simple graph ... ")] in
        let success := ValidateSimpleGraph (edges graph) (vertex_range graph) comm in
        let success := MPI_Allreduce_LOR success (peers_success comm) in
        if negb success then
          (t ++ when output_error
                  [Print cerr (Text ("Error: simple graph validation failed"
                                     +:+ newline))],
           Exited _ 1)
        else
          (t ++ when output_info [Print cout (Text "ok")] ++ statistics, Returned _ graph)
      else (t ++ statistics, Returned _ graph)
  end.

(** The graph [Generate] takes from the generator it has created, run and
    finalized, for a normalised configuration. *)
Definition generated_graph (config : PGeneratorConfig) (comm : Comm) : Graph HPFloat :=
  let generator := generator_Generate (Create config (comm_rank comm) (comm_size comm)) in
  generator_TakeResult
    (if negb (Ctx.skip_postprocessing config)
     then generator_Finalize comm generator else generator).

(** The actions of a process contain the construction of a generator. *)
Definition constructs_generator (t : list action) : Prop :=
  exists config rank size, CreateGenerator config rank size ∈ t.

(** The lines a process writes to [std::cerr]. *)
Definition cerr_lines (t : list action) : list message :=
  omap (fun a => match a with Print cerr m => Some m | _ => None end) t.

End WithFloat.
Global Arguments Collaborators : clear implicits.
Global Arguments Returned {A} a.
Global Arguments Exited {A} code.
Global Arguments Propagated {A} e.

(** A configuration as the library sets it up ([quiet] by default), with
    a chunk count and the validation switched on or off. *)
Definition library_config (k : Z) (validate : bool) : Ctx.PGeneratorConfig unit :=
  Ctx.mkConfig Ctx.RGG_2D 16 0 k tt tt tt false tt 0 0 0 0 tt tt tt false
    true false validate false Ctx.NONE.

(** A defective family for the examples: the process of rank 0 owns the
    edge [(0, 1)], a process of another rank [r] a self-loop at [r]. *)
Definition Defective_GenerateEdgeList (g : Gen.Generator unit Z) : Gen.Generator unit Z :=
  let rank := Gen.family_ g in
  Gen.set_edges [(rank, if rank =? 0 then 1 else rank)]
    (Gen.SetVertexRange (rank, rank + 1) g).

Definition Defective : Gen.Virtuals unit Z Comm :=
  Gen.EdgeListOnlyGenerator Defective_GenerateEdgeList Gen.Generator_FinalizeEdgeList.

(** The collaborators of the examples; the validator stands for
    [ValidateSimpleGraph] and rejects self-loops. *)
Definition DefectiveCollaborators : Collaborators unit :=
  {| generator := Gen.Generator unit Z;
     Create := fun config rank size =>
       Gen.mkGenerator (0, 0) EDGE_LIST [] [] [] [] [] ([], []) rank;
     generator_Generate := Gen.Generate (V := Defective) EDGE_LIST;
     generator_Finalize := Gen.Finalize (V := Defective);
     generator_GetEdges := Gen.edges_;
     generator_TakeResult := fun g => (Gen.Take g).1;
     ValidateSimpleGraph := fun edges range comm =>
       forallb (fun e : Edge => negb (e.1 =? e.2)) edges |}.

End Facade.

(** ** The option string (src/library/kagen.cpp) *)

Module OptionString.

(** The successive results of [std::getline(toker, pair, ';')] until it
    fails: [pair] collects the characters read since the last delimiter and
    [extracted] tells whether the current call has read any. A call that
    reads nothing at all (the stream is at its end) fails and ends the loop. *)
Fixpoint getline_all (toker : string) (pair : string) (extracted : bool) : list string :=
  match toker with
  | EmptyString => if extracted then [pair] else []
  | String c toker' =>
      if Ascii.eqb c ";"%char then pair :: getline_all toker' "" false
      else getline_all toker' (pair +:+ String c "") true
  end.

(** [pair.find(c)], with [None] for [std::string::npos]. *)
Fixpoint find (c : Ascii.ascii) (pair : string) : option nat :=
  match pair with
  | EmptyString => None
  | String a pair' => if Ascii.eqb a c then Some O else S <$> find c pair'
  end.

(** [pair.substr(pos)]. *)
Definition substr_from (pos : nat) (pair : string) : string :=
  String.substring pos (String.length pair - pos) pair.

(** The key a pair of the option string sets. *)
Definition key_of (pair : string) : string :=
  match find "="%char pair with
  | None => pair
  | Some eq_pos => String.substring 0 eq_pos pair
  end.

(** The body of the loop of [ParseOptionString]. *)
Definition ParseOptionString_step (result : gmap string string) (pair : string)
    : gmap string string :=
  match find "="%char pair with
  | None => <[pair := "1"]> result
  | Some eq_pos =>
      let key := String.substring 0 eq_pos pair in
      let value := substr_from (S eq_pos) pair in
      <[key := value]> result
  end.

Definition ParseOptionString (options : string) : gmap string string :=
  foldl ParseOptionString_step ∅ (getline_all options "" false).

(** [std::stoll(str)]: white space, an optional sign, decimal digits;
    [std::invalid_argument] without a digit, [std::out_of_range] outside
    [long long]. *)
Definition isspace (c : Ascii.ascii) : bool :=
  let n := Ascii.nat_of_ascii c in
  Nat.eqb n 32 || (Nat.leb 9 n && Nat.leb n 13).

Definition digit_value (c : Ascii.ascii) : option Z :=
  let n := Z.of_nat (Ascii.nat_of_ascii c) in
  if (48 <=? n) && (n <=? 57) then Some (n - 48) else None.

Fixpoint skip_space (str : string) : string :=
  match str with
  | EmptyString => EmptyString
  | String c str' => if isspace c then skip_space str' else str
  end.

(** Value of the longest prefix of decimal digits, [None] if it is empty. *)
Fixpoint read_digits (str : string) (acc : option Z) : option Z :=
  match str with
  | EmptyString => acc
  | String c str' =>
      match digit_value c with
      | Some d => read_digits str' (Some (10 * default 0 acc + d))
      | None => acc
      end
  end.

Definition stoll (str : string) : result Z :=
  let str := skip_space str in
  let signed :=
    match str with
    | String "-"%char str' => (true, str')
    | String "+"%char str' => (false, str')
    | _ => (false, str)
    end in
  match read_digits signed.2 None with
  | None => Throw (invalid_argument "stoll")
  | Some v =>
      let v := if signed.1 then - v else v in
      if (SSInt_min <=? v) && (v <=? SSInt_max) then Ok v
      else Throw (out_of_range "stoll")
  end.

(** [1ull << count] for an [SInt] count: undefined from 64 bits on. *)
Definition shift_left_1ull (count : Z) : result Z :=
  if count <? 64 then Ok (wrap64 (Z.shiftl 1 count))
  else Throw (undefined_behaviour "shift count").

(** The three lambdas of [GenericGenerateFromOptionString]; the conditional
    expression of the first converts the [long long] of [std::stoll] to
    [SInt]. *)
Definition get_sint_or_default (options : gmap string string) (option : string)
    (default_value : Z) : result Z :=
  match options !! option with
  | None => Ok default_value
  | Some second => v ← stoll second; Ok (to_SInt v)
  end.

Definition get_bool_or_default (options : gmap string string) (option : string)
    (default_value : bool) : bool :=
  match options !! option with
  | None => default_value
  | Some second =>
      String.eqb second "1" || String.eqb second "true" || String.eqb second "yes"
  end.

(** What the code needs of the floating-point type: [std::stod], the
    conversion of an [SInt] and the constant [0.0]. *)
Class FloatOps (HPFloat : Type) : Type := mkFloatOps {
  stod : string -> result HPFloat;
  HPFloat_of_SInt : Z -> HPFloat;
  HPFloat_zero : HPFloat
}.

Section WithFloat.
Context {HPFloat : Type} `{FloatOps HPFloat}.
Local Abbreviation PGeneratorConfig := (Ctx.PGeneratorConfig HPFloat).
(** [GetGeneratorTypeMap()] of kagen/context.h, not among the sources. *)
Context (GetGeneratorTypeMap : gmap string Ctx.GeneratorType).

Definition get_hpfloat_or_default (options : gmap string string) (option : string)
    (default_value : HPFloat) : result HPFloat :=
  match options !! option with
  | None => Ok default_value
  | Some second => stod second
  end.

(** [options["type"]] inserts an empty string for a key that is absent. *)
Definition subscript (options : gmap string string) (key : string)
    : string * gmap string string :=
  match options !! key with
  | Some v => (v, options)
  | None => ("", <[key := ""]> options)
  end.

(** An assignment to a member of [config]: the right-hand side may throw,
    and then [config] keeps what earlier assignments wrote. *)
Definition statement : Type := PGeneratorConfig -> result PGeneratorConfig.

Definition assign {T : Type} (set : T -> PGeneratorConfig -> PGeneratorConfig)
    (value : result T) : statement :=
  fun config => v ← value; Ok (set v config).

Fixpoint run (statements : list statement) (config : PGeneratorConfig)
    : PGeneratorConfig * result unit :=
  match statements with
  | [] => (config, Ok tt)
  | st :: statements' =>
      match st config with
      | Ok config' => run statements' config'
      | Throw e => (config, Throw e)
      end
  end.

(** [GenericGenerateFromOptionString] up to its last line: the configuration
    as the call leaves it, and [Ok] when [Generate(config, comm)] of the
    facade is reached with it. *)
Definition GenericGenerateFromOptionString (options_str : string)
    (config : PGeneratorConfig) : PGeneratorConfig * result unit :=
  let options := ParseOptionString options_str in
  let sub := subscript options "type" in
  let type_str := sub.1 in
  let options := sub.2 in
  match GetGeneratorTypeMap !! type_str with
  | None => (config, Throw (runtime_error "invalid generator type"))
  | Some type =>
      let sint := get_sint_or_default options in
      let hpfloat := get_hpfloat_or_default options in
      let bool_ := get_bool_or_default options in
      run
        [ assign Ctx.set_generator (Ok type);
          assign Ctx.set_n
            (count ← sint "N" 0; d ← shift_left_1ull count; sint "n" d);
          assign Ctx.set_m
            (count ← sint "M" 0; d ← shift_left_1ull count; sint "m" d);
          assign Ctx.set_k (sint "k" 0);
          assign Ctx.set_p (hpfloat "prob" HPFloat_zero);
          assign Ctx.set_r (hpfloat "radius" HPFloat_zero);
          assign Ctx.set_plexp (hpfloat "gamma" HPFloat_zero);
          assign Ctx.set_periodic (Ok (bool_ "periodic" false));
          assign Ctx.set_avg_degree (hpfloat "avg_degree" HPFloat_zero);
          assign Ctx.set_min_degree (sint "min_degree" 0);
          assign Ctx.set_grid_x (sint "grid_x" 0);
          assign Ctx.set_grid_y (sint "grid_y" 0);
          assign Ctx.set_grid_z (sint "grid_z" 0);
          assign Ctx.set_rmat_a (HPFloat_of_SInt <$> sint "rmat_a" 0);
          assign Ctx.set_rmat_b (HPFloat_of_SInt <$> sint "rmat_b" 0);
          assign Ctx.set_rmat_c (HPFloat_of_SInt <$> sint "rmat_c" 0);
          assign Ctx.set_coordinates (Ok (bool_ "coordinates" false)) ]
        config
  end.

(** An assignment that leaves [config.n] alone. *)
Definition keeps_n (st : statement) : Prop :=
  forall config config', st config = Ok config' -> Ctx.n config' = Ctx.n config.

End WithFloat.

(** For the examples: a floating-point type with a single value, and a
    type map that knows two families. *)
Definition UnitFloat : FloatOps unit :=
  {| stod := fun _ => Ok tt; HPFloat_of_SInt := fun _ => tt; HPFloat_zero := tt |}.

Definition example_type_map : gmap string Ctx.GeneratorType :=
  <["rgg2d" := Ctx.RGG_2D]> (<["gnm-undirected" := Ctx.GNM_UNDIRECTED]> ∅).

End OptionString.

(** ** The cubic chunk counts of the factory (src/kagen/generators/generator.cpp) *)

Module FactoryCubic.

(** The integer cube root, bit by bit from the top: [root] is a multiple of
    [2 ^ bits] whose cube does not exceed [value]. *)
Fixpoint cbrt_bits (bits : nat) (root value : Z) : Z :=
  match bits with
  | O => root
  | S bits' =>
      let next := root + 2 ^ Z.of_nat bits' in
      if next * next * next <=? value then cbrt_bits bits' next value
      else cbrt_bits bits' root value
  end.

(** [std::cbrt(value)] truncated to [SInt], at its exact value: the cube
    root of a 64-bit value has at most 22 bits. *)
Definition floor_cbrt (value : Z) : Z := cbrt_bits 22 0 value.

(** [std::round(std::cbrt(value))] converted to [SInt]: the integer nearest
    to the cube root, the double-precision computation taken at its exact
    value. A perfect cube below [2^64] reaches [std::round] with an error
    far below one half, and the cube of any integer other than the root
    differs from the value, so [IsCubic] below returns what the compiled
    code returns. *)
Definition round_cbrt (value : Z) : Z :=
  let c := floor_cbrt value in
  if 8 * value <? (2 * c + 1) * (2 * c + 1) * (2 * c + 1) then c else c + 1.

Definition IsCubic (value : Z) : bool :=
  let root := round_cbrt value in
  wrap64 (wrap64 (root * root) * root) =? value.

(** The loop of [FindCubeMultipleOf], with the fuel of
    [FindSquareMultipleOf_loop]. *)
Fixpoint FindCubeMultipleOf_loop (fuel : nat) (cur value : Z) : Z :=
  match fuel with
  | O => wrap64 (wrap64 (value * value) * value)
  | S fuel' =>
      if cur <? value then
        let cubed := wrap64 (wrap64 (cur * cur) * cur) in
        if cubed mod value =? 0 then cubed
        else FindCubeMultipleOf_loop fuel' (wrap64 (cur + 1)) value
      else wrap64 (wrap64 (value * value) * value)
  end.

Definition FindCubeMultipleOf (value : Z) : Z :=
  if IsCubic value then value
  else if Factory.IsPowerOfTwo value then
    if IsCubic (wrap64 (value * 2)) then wrap64 (value * 2) else wrap64 (value * 4)
  else
    let root := floor_cbrt value in
    FindCubeMultipleOf_loop (Z.to_nat (value - root)) root value.

Section WithFloat.
Context {HPFloat : Type}.

Definition EnsureCubicChunkSize (config : Ctx.PGeneratorConfig HPFloat) (size : Z)
    : result (Ctx.PGeneratorConfig HPFloat) :=
  if Ctx.k config =? 0 then
    Ok (Ctx.set_k (FindCubeMultipleOf (to_SInt size)) config)
  else if negb (IsCubic (Ctx.k config)) then
    Throw (ConfigurationError "number of chunks must be cubic")
  else Ok config.

End WithFloat.

End FactoryCubic.

Module FacadeExamples.

(** A factory of a family that is not available: it throws an exception
    other than [ConfigurationError]. *)
Definition UnavailableFactory : Factory.GeneratorFactory unit :=
  {| Factory.factory_NormalizeParameters := fun _ _ _ =>
       Throw (runtime_error "generator not available") |}.

End FacadeExamples.

(** ** More of the option strings (src/library/kagen.cpp) *)

Module OptionStringMore.

(** The value a pair of the option string gives to its key. *)
Definition value_of (pair : string) : string :=
  match OptionString.find "="%char pair with
  | None => "1"
  | Some eq_pos => OptionString.substr_from (S eq_pos) pair
  end.

(** The pairs of an option string. *)
Definition pairs_of (options : string) : list string :=
  OptionString.getline_all options "" false.

(** The pairs joined again, a [';'] between two neighbours. *)
Definition join (pairs : list string) : string := String.concat ";" pairs.

Section WithFloat.
Context {HPFloat : Type} `{OptionString.FloatOps HPFloat}.
Context (GetGeneratorTypeMap : gmap string Ctx.GeneratorType).

(** [KaGen::GenerateFromOptionString2D] and [KaGen::GenerateFromOptionString3D],
    which share their body, up to the call of [Generate]. *)
Definition GenerateFromOptionString2D (options : string)
    (config : Ctx.PGeneratorConfig HPFloat) : Ctx.PGeneratorConfig HPFloat * result unit :=
  OptionString.GenericGenerateFromOptionString GetGeneratorTypeMap
    (options +:+ ";coordinates") config.

End WithFloat.

End OptionStringMore.

(** ** Decimal numerals, to state what [std::stoll] reads *)

Module Numeral.

(** The character of a decimal digit. *)
Definition digit_char (d : Z) : ascii := ascii_of_nat (48 + Z.to_nat d).

Fixpoint digits_string (digits : list Z) : string :=
  match digits with
  | [] => EmptyString
  | d :: digits' => String (digit_char d) (digits_string digits')
  end.

(** The number a sequence of decimal digits, most significant first, denotes. *)
Definition decimal_value (digits : list Z) : Z :=
  foldl (fun acc d => 10 * acc + d) 0 digits.

Definition is_digit (d : Z) : Prop := 0 <= d <= 9.

Fixpoint all_space (str : string) : bool :=
  match str with
  | EmptyString => true
  | String c str' => OptionString.isspace c && all_space str'
  end.

Definition starts_with_digit (str : string) : bool :=
  match str with
  | EmptyString => false
  | String c _ => if OptionString.digit_value c is Some _ then true else false
  end.

Definition starts_with_sign (str : string) : bool :=
  match str with
  | EmptyString => false
  | String c _ => Ascii.eqb c "-"%char || Ascii.eqb c "+"%char
  end.

Definition starts_with_space (str : string) : bool :=
  match str with
  | EmptyString => false
  | String c _ => OptionString.isspace c
  end.

(** An optional sign: none, ['+'] or ['-']. *)
Inductive sign : Set := NoSign | Plus | Minus.

Definition sign_string (s : sign) : string :=
  match s with NoSign => "" | Plus => "+" | Minus => "-" end.

Definition signed (s : sign) (v : Z) : Z :=
  match s with Minus => - v | _ => v end.

End Numeral.

(** ** The grid calls of the library (src/library/kagen.cpp) *)

Module KaGenGrid.

Section WithFloat.
Context {HPFloat : Type} `{OptionString.FloatOps HPFloat}.
Local Abbreviation PGeneratorConfig := (Ctx.PGeneratorConfig HPFloat).

(** The calls below end in [Generate(config, comm)] of the facade; each
    definition gives the configuration that call receives, which is also
    what [*config_] holds afterwards. *)
Definition GenerateGrid2D_Impl (config : PGeneratorConfig) (grid_x grid_y : Z)
    (p : HPFloat) (m : Z) (periodic coordinates : bool) : PGeneratorConfig :=
  Ctx.set_coordinates coordinates
    (Ctx.set_periodic periodic
       (Ctx.set_m m
          (Ctx.set_p p
             (Ctx.set_grid_y grid_y
                (Ctx.set_grid_x grid_x
                   (Ctx.set_generator Ctx.GRID_2D config)))))).

Definition GenerateGrid2D (config : PGeneratorConfig) (grid_x grid_y : Z) (p : HPFloat)
    (periodic : bool) : PGeneratorConfig :=
  GenerateGrid2D_Impl config grid_x grid_y p 0 periodic false.

(** [const SInt sqrt_n = std::sqrt(n)] truncates the root; on a vertex
    count below [2^52] the double-precision root truncates to the integer
    square root. *)
Definition GenerateGrid2D_N (config : PGeneratorConfig) (n : Z) (p : HPFloat)
    (periodic : bool) : PGeneratorConfig :=
  let sqrt_n := Z.sqrt n in
  GenerateGrid2D config sqrt_n sqrt_n p periodic.

Definition GenerateGrid2D_NM (config : PGeneratorConfig) (n m : Z) (periodic : bool)
    : PGeneratorConfig :=
  let sqrt_n := Z.sqrt n in
  GenerateGrid2D_Impl config sqrt_n sqrt_n OptionString.HPFloat_zero m periodic false.

Definition GenerateGrid2D_Coordinates (config : PGeneratorConfig) (grid_x grid_y : Z)
    (p : HPFloat) (periodic : bool) : PGeneratorConfig :=
  GenerateGrid2D_Impl config grid_x grid_y p 0 periodic true.

End WithFloat.

End KaGenGrid.

(** ** The end of [main] and the redistribution (src/app/tools/chkgraph.cpp) *)

Module ChkGraphMain.

(** [MPI_Allreduce(MPI_IN_PLACE, &actual_n, 1, KAGEN_MPI_SINT, MPI_MAX, ..)]. *)
Definition MPI_Allreduce_MAX (mine : Z) (peers : list Z) : Z := foldr Z.max mine peers.

(** The loop over the edges before the redistribution: every edge
    overwrites [actual_n]. *)
Definition local_actual_n (n : Z) (edges : Edgelist) : Z :=
  foldl (fun actual_n e => Z.max n (Z.max e.1 e.2)) 0 edges.

(** The vertex range a process gives itself for the redistribution;
    [peers] are the values of [actual_n] of the other processes. *)
Definition redistribution_range (n size rank : Z) (edges : Edgelist) (peers : list Z)
    : VertexRange :=
  let actual_n := MPI_Allreduce_MAX (local_actual_n n edges) peers in
  ChkGraph.ComputeRange actual_n size rank.



End ChkGraphMain.

(** * Properties *)

(** ** Machine integers *)

Lemma wrap64_small z : is_SInt z -> wrap64 z = z.
Proof. intros Hz. apply Z.mod_small. exact Hz. Qed.

Lemma wrap64_range z : is_SInt (wrap64 z).
Proof. apply Z.mod_pos_bound. reflexivity. Qed.

Lemma wrap64_idemp z : wrap64 (wrap64 z) = wrap64 z.
Proof. apply wrap64_small, wrap64_range. Qed.

(** ** [ComputeRange] partitions the vertices *)

Import ChkGraph.

Section Boundary.
Variables n size : Z.
Hypothesis Hn : is_SInt n.
Hypothesis Hsize : 1 <= size < PEID_bound.

Lemma boundary_0 : boundary n size 0 = 0.
Proof using Hn Hsize.
  unfold boundary. pose proof (Z.mod_pos_bound n size). lia.
Qed.

Lemma boundary_size : boundary n size size = n.
Proof using Hn Hsize.
  unfold boundary. pose proof (Z.mod_pos_bound n size).
  pose proof (Z.div_mod n size). lia.
Qed.

Lemma boundary_step r :
  0 <= r ->
  boundary n size (r + 1) - boundary n size r
  = if r <? n mod size then n / size + 1 else n / size.
Proof using Hn Hsize.
  intros Hr. unfold boundary. destruct (Z.ltb_spec r (n mod size)); lia.
Qed.

Lemma div_nonneg' : 0 <= n / size.
Proof using Hn Hsize. apply Z.div_pos; unfold is_SInt in Hn; lia. Qed.

Lemma boundary_mono r1 r2 :
  0 <= r1 <= r2 -> boundary n size r1 <= boundary n size r2.
Proof using Hn Hsize.
  intros H. unfold boundary. pose proof div_nonneg'. nia.
Qed.

Lemma boundary_le_n r : 0 <= r <= size -> 0 <= boundary n size r <= n.
Proof using Hn Hsize.
  intros H.
  pose proof (boundary_mono 0 r ltac:(lia)) as H0.
  pose proof (boundary_mono r size ltac:(lia)) as H1.
  rewrite boundary_0 in H0. rewrite boundary_size in H1. lia.
Qed.

Lemma ComputeRange_boundary rank :
  0 <= rank < size ->
  ComputeRange n size rank = (boundary n size rank, boundary n size (rank + 1)).
Proof using Hn Hsize.
  intros Hr.
  assert (Hm : SInt_modulus = 18446744073709551616) by reflexivity.
  assert (Hp : PEID_bound = 2147483648) by reflexivity.
  pose proof (boundary_le_n rank ltac:(lia)) as Hb0.
  pose proof (boundary_le_n (rank + 1) ltac:(lia)) as Hb1.
  pose proof (boundary_step rank ltac:(lia)) as Hstep.
  pose proof div_nonneg' as Hdiv.
  pose proof (Z.mod_pos_bound n size ltac:(lia)) as Hmod.
  assert (Hrc : 0 <= rank * (n / size) <= n).
  { unfold boundary in Hb0. split; [ nia | lia ]. }
  unfold is_SInt in Hn.
  unfold ComputeRange, to_SInt.
  rewrite (wrap64_small size) by (unfold is_SInt; lia).
  rewrite (wrap64_small rank) by (unfold is_SInt; lia).
  rewrite (wrap64_small (rank * (n / size))) by (unfold is_SInt; lia).
  fold (boundary n size rank).
  rewrite (wrap64_small (boundary n size rank)) by (unfold is_SInt; lia).
  destruct (Z.ltb_spec rank (n mod size)) as [Hlt | Hge].
  - assert (n / size + 1 <= boundary n size (rank + 1)).
    { pose proof (boundary_le_n rank ltac:(lia)). lia. }
    rewrite (wrap64_small (n / size + 1)) by (unfold is_SInt; lia).
    replace (boundary n size rank + (n / size + 1)) with (boundary n size (rank + 1)) by lia.
    rewrite wrap64_small by (unfold is_SInt; lia).
    f_equal. lia.
  - replace (boundary n size rank + n / size) with (boundary n size (rank + 1)) by lia.
    rewrite wrap64_small by (unfold is_SInt; lia).
    f_equal. lia.
Qed.

Lemma boundary_cover (k : nat) v :
  0 <= v < boundary n size (Z.of_nat k) ->
  exists r, 0 <= r < Z.of_nat k /\ boundary n size r <= v < boundary n size (r + 1).
Proof using Hn Hsize.
  induction k as [| k IH]; intros Hv.
  - change (Z.of_nat 0) with 0 in Hv. rewrite boundary_0 in Hv. lia.
  - destruct (Z_lt_le_dec v (boundary n size (Z.of_nat k))) as [Hlt | Hge].
    + destruct IH as (r & Hr & Hb); [ lia | ]. exists r. split; [ lia | exact Hb ].
    + exists (Z.of_nat k). split; [ lia | ].
      replace (Z.of_nat k + 1) with (Z.of_nat (S k)) by lia. lia.
Qed.
End Boundary.


(** C9. For a vertex count [n] and a process count [size >= 1] of their C
    types, the ranges [ComputeRange n size rank], [rank = 0 .. size - 1],
    partition [0, n): the first one starts at 0, each one ends where the
    next one starts, the last one ends at [n] (so they increase with the
    rank and their union is [0, n)), every vertex of [0, n) lies in the range
    of one rank and of no other, and each range has [n / size] or
    [n / size + 1] vertices. *)
Theorem ComputeRange_partition (n size : Z) :
  is_SInt n -> 1 <= size < PEID_bound ->
  (ComputeRange n size 0).1 = 0
  /\ (ComputeRange n size (size - 1)).2 = n
  /\ (forall rank, 0 <= rank -> rank + 1 < size ->
        (ComputeRange n size rank).2 = (ComputeRange n size (rank + 1)).1)
  /\ (forall rank, 0 <= rank < size ->
        let r := ComputeRange n size rank in
        0 <= r.1 <= r.2 /\ r.2 <= n
        /\ (r.2 - r.1 = n / size \/ r.2 - r.1 = n / size + 1))
  /\ (forall r1 r2, 0 <= r1 -> r1 < r2 -> r2 < size ->
        (ComputeRange n size r1).1 <= (ComputeRange n size r2).1
        /\ (ComputeRange n size r1).2 <= (ComputeRange n size r2).1
        /\ (ComputeRange n size r1).2 <= (ComputeRange n size r2).2)
  /\ (forall r1 r2 v, 0 <= r1 < size -> 0 <= r2 < size -> r1 <> r2 ->
        ~ (in_range (ComputeRange n size r1) v /\ in_range (ComputeRange n size r2) v))
  /\ (forall v, 0 <= v < n ->
        exists rank, 0 <= rank < size /\ in_range (ComputeRange n size rank) v)
  /\ (forall rank v, 0 <= rank < size ->
        in_range (ComputeRange n size rank) v -> 0 <= v < n).
Proof.
  intros Hn Hsize.
  pose proof (ComputeRange_boundary n size Hn Hsize) as HCR.
  pose proof (boundary_mono n size Hn Hsize) as Hmono.
  pose proof (boundary_le_n n size Hn Hsize) as Hle.
  pose proof (boundary_step n size Hn Hsize) as Hstep.
  assert (Hdisj : forall r1 r2 v, 0 <= r1 -> r1 < r2 -> r2 < size ->
            ~ (in_range (ComputeRange n size r1) v /\ in_range (ComputeRange n size r2) v)).
  { intros r1 r2 v H1 H12 H2 [Ha Hb]. unfold in_range in *.
    rewrite HCR in Ha, Hb by lia. simpl in *.
    pose proof (Hmono (r1 + 1) r2 ltac:(lia)). lia. }
  repeat split.
  - rewrite HCR by lia. simpl. apply boundary_0; assumption.
  - rewrite HCR by lia. simpl. replace (size - 1 + 1) with size by lia.
    apply boundary_size; assumption.
  - intros rank H0 H1. rewrite !HCR by lia. reflexivity.
  - rewrite HCR by lia. simpl. apply Hle. lia.
  - rewrite HCR by lia. simpl. apply Hmono. lia.
  - rewrite HCR by lia. simpl. apply Hle. lia.
  - rewrite HCR by lia. simpl. specialize (Hstep rank ltac:(lia)).
    destruct (rank <? n mod size); lia.
  - rewrite !HCR by lia. simpl. apply Hmono. lia.
  - rewrite !HCR by lia. simpl. apply Hmono. lia.
  - rewrite !HCR by lia. simpl. apply Hmono. lia.
  - intros r1 r2 v H1 H2 Hne.
    destruct (Z_lt_le_dec r1 r2) as [Hlt | Hge].
    + apply Hdisj; lia.
    + intros [Ha Hb]. apply (Hdisj r2 r1 v); [ lia | lia | lia | split; assumption ].
  - intros v Hv.
    destruct (boundary_cover n size Hn Hsize (Z.to_nat size) v) as (r & Hr & Hb).
    { rewrite Z2Nat.id by lia. rewrite boundary_size by assumption. exact Hv. }
    exists r. rewrite Z2Nat.id in Hr by lia. split; [ exact Hr | ].
    unfold in_range. rewrite HCR by lia. exact Hb.
  - unfold in_range in H0. rewrite HCR in H0 by lia. simpl in H0.
    pose proof (Hle rank ltac:(lia)). lia.
  - unfold in_range in H0. rewrite HCR in H0 by lia. simpl in H0.
    pose proof (Hle (rank + 1) ltac:(lia)). lia.
Qed.

Lemma ComputeRange_partition_witness :
  (ComputeRange 10 4 0).1 = 0
  /\ (ComputeRange 10 4 3).2 = 10
  /\ ComputeRange 10 4 1 = (3, 6).
Proof.
  pose proof (ComputeRange_partition 10 4) as H.
  destruct H as (H0 & Hlast & _).
  - unfold is_SInt. vm_compute. split; [ discriminate | reflexivity ].
  - vm_compute. split; [ discriminate | reflexivity ].
  - split; [ exact H0 | split; [ exact Hlast | reflexivity ] ].
Defined.

(** ** The generator base class *)

Section GeneratorFacts.
Context {HPFloat D MPI_Comm : Type}.
Local Abbreviation Generator := (Gen.Generator HPFloat D).
Local Abbreviation Virtuals := (Gen.Virtuals HPFloat D MPI_Comm).

Lemma Reset_buffers_empty (g : Generator) : Gen.buffers_empty (Gen.Reset g).
Proof. repeat split. Qed.

Lemma Generate_unfold {V : Virtuals} (rep : GraphRepresentation) (g : Generator) :
  Gen.Generate rep g
  = match rep with
    | EDGE_LIST => Gen.GenerateEdgeList (Gen.set_representation rep (Gen.Reset g))
    | CSR => Gen.GenerateCSR (Gen.set_representation rep (Gen.Reset g))
    end.
Proof. destruct rep; reflexivity. Qed.

(** C10. [Generate] can be called again on the same generator: every call
    first runs [Reset], which empties the seven buffers and leaves the
    vertex range and the representation tag as they are; the generation
    proper starts from that state, so that two generators that agree on
    the vertex range and the members of the family produce the same
    result, whatever a previous call left in their buffers. *)
Theorem Generate_resets_buffers {V : Virtuals} (rep : GraphRepresentation) (g : Generator) :
  Gen.buffers_empty (Gen.Reset g)
  /\ Gen.vertex_range_ (Gen.Reset g) = Gen.vertex_range_ g
  /\ Gen.representation_ (Gen.Reset g) = Gen.representation_ g
  /\ Gen.family_ (Gen.Reset g) = Gen.family_ g
  /\ Gen.Generate rep g
     = (match rep with EDGE_LIST => Gen.GenerateEdgeList | CSR => Gen.GenerateCSR end)
         (Gen.set_representation rep (Gen.Reset g))
  /\ (forall g' : Generator,
        Gen.vertex_range_ g' = Gen.vertex_range_ g ->
        Gen.family_ g' = Gen.family_ g ->
        Gen.Generate rep g' = Gen.Generate rep g).
Proof.
  split; [ apply Reset_buffers_empty | ].
  repeat split.
  - destruct rep; reflexivity.
  - intros g' Hrange Hfamily. rewrite !Generate_unfold.
    assert (Heq : Gen.set_representation rep (Gen.Reset g')
                  = Gen.set_representation rep (Gen.Reset g)).
    { unfold Gen.set_representation, Gen.Reset. simpl. rewrite Hrange, Hfamily. reflexivity. }
    rewrite Heq. reflexivity.
Qed.

End GeneratorFacts.

Lemma Generate_resets_buffers_witness :
  Gen.Generate (V := Gen.PairEdgeList) EDGE_LIST
    (Gen.Generate (V := Gen.PairEdgeList) CSR Gen.fresh)
  = Gen.Generate (V := Gen.PairEdgeList) EDGE_LIST (Gen.SetVertexRange (0, 2) Gen.fresh).
Proof.
  pose proof (Generate_resets_buffers (V := Gen.PairEdgeList) EDGE_LIST
                (Gen.SetVertexRange (0, 2) Gen.fresh)) as H.
  destruct H as (_ & _ & _ & _ & _ & H).
  apply H; reflexivity.
Defined.

Section TakeFacts.
Context {HPFloat D : Type}.
Local Abbreviation Generator := (Gen.Generator HPFloat D).

(** C4, as amended. The first call to [Take] returns a graph with the
    vertex range, the representation tag and the seven buffers of the
    generator; it leaves every buffer of the generator empty, while the
    vertex range and the tag, which are copied, stay stored. A second call
    yields a graph whose buffers are all empty and whose vertex range and
    tag are those of the first one, and changes nothing any more. *)
Theorem Take_moves_buffers (g : Generator) :
  let graph := (Gen.Take g).1 in
  let g' := (Gen.Take g).2 in
  graph = Gen.graph_of g
  /\ Gen.buffers_empty g'
  /\ Gen.vertex_range_ g' = Gen.vertex_range_ g
  /\ Gen.representation_ g' = Gen.representation_ g
  /\ Gen.family_ g' = Gen.family_ g
  /\ Gen.graph_buffers_empty (Gen.Take g').1
  /\ vertex_range (Gen.Take g').1 = Gen.vertex_range_ g
  /\ representation (Gen.Take g').1 = Gen.representation_ g
  /\ (Gen.Take g').2 = g'.
Proof. repeat split. Qed.

End TakeFacts.

(** C4, as stated, fails: after [Take] the generator of the example still
    stores its vertex range [0, 2), and the graph of a second [Take] has
    these two vertices. *)
Lemma Take_leaves_range_counterexample :
  let g := Gen.Generate (V := Gen.PairEdgeList) EDGE_LIST Gen.fresh in
  ~ Gen.state_empty (Gen.Take g).2
  /\ ~ Gen.graph_empty (Gen.Take (Gen.Take g).2).1
  /\ vertex_range (Gen.Take (Gen.Take g).2).1 = (0, 2).
Proof.
  repeat split.
  - intros [_ H]. discriminate H.
  - intros [_ H]. discriminate H.
Qed.

Section ConversionFacts.
Context {HPFloat D MPI_Comm : Type}.
Local Abbreviation Generator := (Gen.Generator HPFloat D).
Variable generate : Generator -> Generator.
Variable finalize : MPI_Comm -> Generator -> Generator.
Variable comm : MPI_Comm.

Lemma offsets_not_nil start sizes : offsets start sizes <> [].
Proof. destruct sizes; discriminate. Qed.

(** C2, as amended. For the graph [Take] returns after [Generate] and
    [Finalize]: when the requested representation is the native one of the
    generator, the graph holds what the family produced and finalized;
    when it is the other one, [Finalize] adds the requested representation
    and does not clear the native one. A CSR-only generator asked for an
    edge list (with [xadj] non-empty) returns the CSR pair together with
    its expansion to an edge list; an edge-list-only generator asked for
    CSR (with [xadj] empty) returns the edge list together with the CSR
    pair built from it, so that with a non-empty edge list both
    representations are populated. *)
Theorem Take_after_Finalize_keeps_native (g : Generator) :
  (let V := Gen.CSROnlyGenerator generate finalize in
   let g1 := Gen.Generate (V := V) EDGE_LIST g in
   Gen.representation_ g1 = EDGE_LIST -> Gen.xadj_ g1 <> [] ->
   let graph := (Gen.Take (Gen.Finalize (V := V) comm g1)).1 in
   xadj graph = Gen.xadj_ (finalize comm g1)
   /\ adjncy graph = Gen.adjncy_ (finalize comm g1)
   /\ edges graph = BuildEdgeListFromCSR (vertex_range graph) (xadj graph) (adjncy graph))
  /\ (let V := Gen.EdgeListOnlyGenerator generate finalize in
      let g1 := Gen.Generate (V := V) CSR g in
      Gen.representation_ g1 = CSR -> Gen.xadj_ g1 = [] ->
      let graph := (Gen.Take (Gen.Finalize (V := V) comm g1)).1 in
      edges graph = Gen.edges_ (finalize comm g1)
      /\ (xadj graph, adjncy graph)
         = BuildCSRFromEdgeList (vertex_range graph) (edges graph) (edge_weights graph)
      /\ xadj graph <> []
      /\ (edges graph <> [] -> ~ Gen.exactly_one_populated graph))
  /\ (let V := Gen.CSROnlyGenerator generate finalize in
      let g1 := Gen.Generate (V := V) CSR g in
      Gen.representation_ g1 = CSR ->
      (Gen.Take (Gen.Finalize (V := V) comm g1)).1 = Gen.graph_of (finalize comm g1))
  /\ (let V := Gen.EdgeListOnlyGenerator generate finalize in
      let g1 := Gen.Generate (V := V) EDGE_LIST g in
      Gen.representation_ g1 = EDGE_LIST ->
      (Gen.Take (Gen.Finalize (V := V) comm g1)).1 = Gen.graph_of (finalize comm g1)).
Proof.
  repeat apply conj.
  - intros V g1 Htag Hxadj. unfold Gen.Finalize. rewrite Htag. simpl.
    unfold Gen.CSROnlyGenerator_FinalizeEdgeList.
    destruct (Gen.xadj_ g1) as [| x xs] eqn:E; [ contradiction | ].
    simpl. repeat split.
  - intros V g1 Htag Hxadj. unfold Gen.Finalize. rewrite Htag. simpl.
    unfold Gen.EdgeListOnlyGenerator_FinalizeCSR. rewrite Hxadj. simpl.
    repeat apply conj; try reflexivity.
    + apply offsets_not_nil.
    + intros Hedges [(_ & Hx & _) | (_ & _ & He)].
      * exact (offsets_not_nil _ _ Hx).
      * exact (Hedges He).
  - intros V g1 Htag. unfold Gen.Finalize. rewrite Htag. reflexivity.
  - intros V g1 Htag. unfold Gen.Finalize. rewrite Htag. reflexivity.
Qed.

End ConversionFacts.

Lemma Take_after_Finalize_keeps_native_witness :
  let g1 := Gen.Generate (V := Gen.PairCSR) EDGE_LIST Gen.fresh in
  let graph := (Gen.Take (Gen.Finalize (V := Gen.PairCSR) tt g1)).1 in
  xadj graph = [0; 1; 2] /\ adjncy graph = [1; 0] /\ edges graph = [(0, 1); (1, 0)].
Proof.
  pose proof (Take_after_Finalize_keeps_native (MPI_Comm := unit)
                Gen.Pair_GenerateCSR Gen.Generator_FinalizeCSR tt Gen.fresh) as H.
  destruct H as (H & _). cbv zeta in H.
  specialize (H eq_refl ltac:(discriminate)).
  destruct H as (Hx & Ha & He).
  cbv zeta. split; [ exact Hx | split; [ exact Ha | ] ].
  etransitivity; [ exact He | reflexivity ].
Defined.

(** C2, as stated, fails: a CSR-only generator asked for an edge list hands
    over both the edge list and the CSR pair it was built from, and an
    edge-list-only generator asked for CSR does the same. *)
Lemma Take_both_populated_counterexample :
  let g1 := Gen.Generate (V := Gen.PairCSR) EDGE_LIST Gen.fresh in
  let graph := (Gen.Take (Gen.Finalize (V := Gen.PairCSR) tt g1)).1 in
  let g2 := Gen.Generate (V := Gen.PairEdgeList) CSR Gen.fresh in
  let graph' := (Gen.Take (Gen.Finalize (V := Gen.PairEdgeList) tt g2)).1 in
  ~ Gen.exactly_one_populated graph
  /\ edges graph = [(0, 1); (1, 0)] /\ xadj graph = [0; 1; 2] /\ adjncy graph = [1; 0]
  /\ ~ Gen.exactly_one_populated graph'
  /\ edges graph' = [(0, 1); (1, 0)] /\ xadj graph' = [0; 1; 2] /\ adjncy graph' = [1; 0].
Proof.
  repeat apply conj; try reflexivity.
  - intros [(_ & H & _) | (_ & _ & H)]; discriminate H.
  - intros [(_ & H & _) | (_ & _ & H)]; discriminate H.
Qed.

(** ** [FilterDuplicateEdges] *)

#[local] Instance edge_le_total : Total Gen.edge_le.
Proof. intros [a1 a2] [b1 b2]. unfold Gen.edge_le. simpl. lia. Qed.

#[local] Instance edge_le_trans : Transitive Gen.edge_le.
Proof. intros [a1 a2] [b1 b2] [c1 c2]. unfold Gen.edge_le. simpl. lia. Qed.

#[local] Instance edge_le_antisymm : AntiSymm (=) Gen.edge_le.
Proof.
  intros [a1 a2] [b1 b2]. unfold Gen.edge_le. simpl. intros H1 H2.
  f_equal; lia.
Qed.

Lemma edge_lt_le a b : Gen.edge_lt a b -> Gen.edge_le a b.
Proof. destruct a, b. unfold Gen.edge_lt, Gen.edge_le. simpl. lia. Qed.

Lemma edge_lt_ne a b : Gen.edge_lt a b -> a <> b.
Proof.
  destruct a, b. unfold Gen.edge_lt. simpl. intros H Heq.
  inversion Heq; subst. lia.
Qed.

Lemma edge_le_ne_lt a b : Gen.edge_le a b -> a <> b -> Gen.edge_lt a b.
Proof.
  destruct a as [a1 a2], b as [b1 b2]. unfold Gen.edge_lt, Gen.edge_le. simpl.
  intros H Hne.
  destruct (decide (a1 = b1)) as [-> | ]; [ | lia ].
  destruct (decide (a2 = b2)) as [-> | ]; [ contradiction | lia ].
Qed.

Lemma Sorted_edge_lt_le l : Sorted Gen.edge_lt l -> Sorted Gen.edge_le l.
Proof.
  induction 1 as [| x l Hs IH Hhd]; constructor; [ exact IH | ].
  destruct Hhd; constructor. apply edge_lt_le. assumption.
Qed.

Lemma std_sort_Sorted l : Sorted Gen.edge_le (Gen.std_sort l).
Proof. apply Sorted_merge_sort; apply _. Qed.

Lemma std_sort_Permutation l : Gen.std_sort l ≡ₚ l.
Proof. apply merge_sort_Permutation. Qed.

(** Whatever algorithm [std::sort] runs, this is its result. *)
Lemma std_sort_determined l l' :
  Sorted Gen.edge_le l' -> l' ≡ₚ l -> l' = Gen.std_sort l.
Proof.
  intros Hs Hp. apply (Sorted_unique Gen.edge_le); [ exact Hs | apply std_sort_Sorted | ].
  rewrite Hp. symmetry. apply std_sort_Permutation.
Qed.

Lemma std_sort_sorted_id l : Sorted Gen.edge_le l -> Gen.std_sort l = l.
Proof. intros Hs. symmetry. apply std_sort_determined; [ exact Hs | reflexivity ]. Qed.

Lemma unique_from_head x l : exists l', Gen.unique_from x l = x :: l'.
Proof.
  revert x. induction l as [| y l IH]; intros x; simpl.
  - exists []. reflexivity.
  - destruct (decide (x = y)) as [-> | Hne].
    + apply IH.
    + eexists. reflexivity.
Qed.

Lemma unique_from_elem x l e : e ∈ Gen.unique_from x l <-> e = x \/ e ∈ l.
Proof.
  revert x. induction l as [| y l IH]; intros x; simpl.
  - rewrite list_elem_of_singleton. split; [ auto | ]. intros [H | H]; [ exact H | inversion H ].
  - destruct (decide (x = y)) as [-> | Hne].
    + rewrite IH, elem_of_cons. tauto.
    + rewrite !elem_of_cons, IH. tauto.
Qed.

Lemma unique_from_Sorted x l :
  Sorted Gen.edge_le (x :: l) -> Sorted Gen.edge_lt (Gen.unique_from x l).
Proof.
  revert x. induction l as [| y l IH]; intros x Hs; simpl.
  - repeat constructor.
  - apply Sorted_inv in Hs as [Hs Hhd]. apply HdRel_inv in Hhd.
    destruct (decide (x = y)) as [-> | Hne].
    + apply IH. exact Hs.
    + constructor; [ apply IH; exact Hs | ].
      destruct (unique_from_head y l) as [l' ->]. constructor.
      apply edge_le_ne_lt; assumption.
Qed.

Lemma unique_from_sorted_id x l :
  Sorted Gen.edge_lt (x :: l) -> Gen.unique_from x l = x :: l.
Proof.
  revert x. induction l as [| y l IH]; intros x Hs; simpl; [ reflexivity | ].
  apply Sorted_inv in Hs as [Hs Hhd]. apply HdRel_inv in Hhd.
  destruct (decide (x = y)) as [-> | Hne].
  - exfalso. exact (edge_lt_ne _ _ Hhd eq_refl).
  - rewrite IH by exact Hs. reflexivity.
Qed.

Lemma std_unique_Sorted l : Sorted Gen.edge_le l -> Sorted Gen.edge_lt (Gen.std_unique l).
Proof. destruct l; [ constructor | apply unique_from_Sorted ]. Qed.

Lemma std_unique_sorted_id l : Sorted Gen.edge_lt l -> Gen.std_unique l = l.
Proof. destruct l; [ reflexivity | apply unique_from_sorted_id ]. Qed.

Lemma std_unique_elem l e : e ∈ Gen.std_unique l <-> e ∈ l.
Proof.
  destruct l as [| x l]; [ reflexivity | ]. simpl.
  rewrite unique_from_elem, elem_of_cons. reflexivity.
Qed.

Section FilterFacts.
Context {HPFloat D : Type}.
Local Abbreviation Generator := (Gen.Generator HPFloat D).

(** C6. [FilterDuplicateEdges] is idempotent. One application replaces the
    edge list by its sorted sequence with every run of equal neighbours
    reduced to one edge: the result is strictly increasing in the
    lexicographic order of the pairs, has the edges of the input and no
    others, and the other members are left alone. *)
Theorem FilterDuplicateEdges_idempotent (g : Generator) :
  Gen.FilterDuplicateEdges (Gen.FilterDuplicateEdges g) = Gen.FilterDuplicateEdges g
  /\ Gen.edges_ (Gen.FilterDuplicateEdges g) = Gen.std_unique (Gen.std_sort (Gen.edges_ g))
  /\ Sorted Gen.edge_lt (Gen.edges_ (Gen.FilterDuplicateEdges g))
  /\ (forall e, e ∈ Gen.edges_ (Gen.FilterDuplicateEdges g) <-> e ∈ Gen.edges_ g)
  /\ Gen.FilterDuplicateEdges g = Gen.set_edges (Gen.edges_ (Gen.FilterDuplicateEdges g)) g.
Proof.
  assert (Hs : Sorted Gen.edge_lt (Gen.std_unique (Gen.std_sort (Gen.edges_ g)))).
  { apply std_unique_Sorted, std_sort_Sorted. }
  repeat apply conj.
  - unfold Gen.FilterDuplicateEdges, Gen.set_edges. simpl.
    rewrite (std_sort_sorted_id _ (Sorted_edge_lt_le _ Hs)).
    rewrite (std_unique_sorted_id _ Hs). reflexivity.
  - reflexivity.
  - exact Hs.
  - intros e. simpl. rewrite std_unique_elem.
    split; intros He.
    + rewrite <- (std_sort_Permutation (Gen.edges_ g)). exact He.
    + rewrite (std_sort_Permutation (Gen.edges_ g)). exact He.
  - reflexivity.
Qed.

End FilterFacts.

(** ** The converter: from an edge list to CSR and back *)

Section Slices.
Context {A : Type} `{!Inhabited A}.

Lemma lookup_seq_take_drop (l : list A) (a n : nat) :
  (a + n <= length l)%nat ->
  map (fun j : nat => l !!! j) (seq a n) = take n (drop a l).
Proof.
  revert a l. induction n as [| n IH]; intros a l Hlen; simpl.
  - rewrite take_0. reflexivity.
  - assert (Ha : (a < length l)%nat) by lia.
    pose proof (list_lookup_lookup_total_lt l a Ha) as Hl.
    rewrite (drop_S l (l !!! a) a Hl). simpl. f_equal.
    apply IH. lia.
Qed.

Lemma concat_slice (ls : list (list A)) (i : nat) (d : list A) :
  (i < length ls)%nat ->
  take (length (nth i ls d)) (drop (length (concat (take i ls))) (concat ls)) = nth i ls d.
Proof.
  revert i. induction ls as [| l ls IH]; intros i Hi; simpl in Hi; [ lia | ].
  destruct i as [| i]; simpl.
  - apply take_app_length.
  - rewrite length_app, <- drop_drop, drop_app_length. apply IH. lia.
Qed.

Lemma offsets_lookup (ls : list (list A)) (start : Z) (i : nat) :
  (i <= length ls)%nat ->
  offsets start (map length ls) !!! i = start + Z.of_nat (length (concat (take i ls))).
Proof.
  revert start i. induction ls as [| l ls IH]; intros start i Hi; simpl in Hi.
  - replace i with O by lia. simpl. lia.
  - destruct i as [| i]; simpl; [ lia | ].
    change ((start :: offsets (start + Z.of_nat (length l)) (map length ls)) !!! S i)
      with (offsets (start + Z.of_nat (length l)) (map length ls) !!! i).
    rewrite IH by lia. rewrite length_app. lia.
Qed.

Lemma concat_take_S (ls : list (list A)) (i : nat) (d : list A) :
  (i < length ls)%nat ->
  length (concat (take (S i) ls)) = (length (concat (take i ls)) + length (nth i ls d))%nat.
Proof.
  revert i. induction ls as [| l ls IH]; intros i Hi; simpl in Hi; [ lia | ].
  destruct i as [| i]; simpl.
  - rewrite length_app. simpl. lia.
  - rewrite !length_app. rewrite (IH i) by lia. lia.
Qed.

Lemma concat_take_le (ls : list (list A)) (i : nat) :
  (length (concat (take i ls)) <= length (concat ls))%nat.
Proof.
  rewrite <- (take_drop i ls) at 2. rewrite concat_app, length_app. lia.
Qed.
End Slices.

Section RoundTrip.
Variable range : VertexRange.
Variable edges : Edgelist.
Hypothesis Hvalid : valid_input range edges.

Let n := local_vertex_count range.
Let slices := map (edges_of range edges) (seq 0 n).

Lemma slices_length : length slices = n.
Proof. unfold slices. rewrite length_map, length_seq. reflexivity. Qed.

Lemma slices_nth i : (i < n)%nat -> nth i slices [] = edges_of range edges i.
Proof.
  intros Hi. unfold slices.
  rewrite (nth_indep _ [] (edges_of range edges 0)) by (rewrite length_map, length_seq; lia).
  rewrite (map_nth (edges_of range edges)). rewrite seq_nth by lia. reflexivity.
Qed.

Lemma edges_of_tail i e :
  e ∈ edges_of range edges i -> e.1 = wrap64 (range.1 + Z.of_nat i) /\ (i < n)%nat.
Proof.
  unfold edges_of. rewrite list_elem_of_filter. intros [Ht He].
  destruct Hvalid as (H0 & H1 & H2 & Hall).
  rewrite Forall_forall in Hall. specialize (Hall e He).
  unfold local_tail, wrap64 in *.
  assert (Hm : SInt_modulus = 18446744073709551616) by reflexivity.
  rewrite Z.mod_small in Ht by lia.
  rewrite Z.mod_small by lia.
  unfold n, local_vertex_count. lia.
Qed.

Lemma retag_slice (c : Z) (l : Edgelist) :
  Forall (fun e : Edge => e.1 = c) l -> map (fun h => (c, h)) (l.*2) = l.
Proof.
  induction 1 as [| [t h] l Ht _ IH]; simpl; [ reflexivity | ].
  simpl in Ht. subst. f_equal. exact IH.
Qed.

Lemma BuildEdgeListFromCSR_slice i :
  (i < n)%nat ->
  let csr := BuildCSRFromEdgeList range edges [] in
  let lo := Z.to_nat (csr.1 !!! i) in
  let hi := Z.to_nat (csr.1 !!! S i) in
  map (fun j : nat => (wrap64 (range.1 + Z.of_nat i), csr.2 !!! j)) (seq lo (hi - lo))
  = edges_of range edges i.
Proof.
  intros Hi. pose proof slices_length as Hlen.
  change (BuildCSRFromEdgeList range edges [])
    with (offsets 0 (map length slices), (concat slices).*2).
  cbv zeta. cbn [fst snd].
  rewrite (offsets_lookup slices 0 i) by lia.
  rewrite (offsets_lookup slices 0 (S i)) by lia.
  rewrite !Z.add_0_l, !Nat2Z.id.
  pose proof (concat_take_S slices i [] ltac:(lia)) as HS.
  pose proof (concat_take_le slices (S i)) as Hle.
  replace (length (concat (take (S i) slices)) - length (concat (take i slices)))%nat
    with (length (nth i slices [])) by lia.
  rewrite <- (map_map (fun j => (concat slices).*2 !!! j)
                (fun h => (wrap64 (range.1 + Z.of_nat i), h))).
  rewrite lookup_seq_take_drop by (rewrite length_fmap; lia).
  rewrite <- fmap_drop, <- fmap_take.
  rewrite concat_slice by lia.
  rewrite slices_nth by exact Hi.
  apply retag_slice. rewrite Forall_forall. intros e He.
  apply edges_of_tail in He. tauto.
Qed.

Lemma round_trip_grouped :
  let csr := BuildCSRFromEdgeList range edges [] in
  BuildEdgeListFromCSR range csr.1 csr.2 = grouped_by_tail range edges.
Proof.
  intros csr. unfold BuildEdgeListFromCSR, grouped_by_tail. fold n. f_equal.
  apply map_ext_in. intros i Hi. apply in_seq in Hi.
  apply BuildEdgeListFromCSR_slice. lia.
Qed.
End RoundTrip.

Section Grouping.
Context {A : Type}.

Lemma concat_map_insert (f : nat -> list A) (e : A) (i0 : nat) (js : list nat) :
  NoDup js ->
  concat (map (fun i => if decide (i = i0) then e :: f i else f i) js)
  ≡ₚ (if decide (i0 ∈ js) then [e] else []) ++ concat (map f js).
Proof.
  induction 1 as [| j js Hj Hnd IH]; simpl.
  - destruct (decide (i0 ∈ [])) as [H | H]; [ inversion H | reflexivity ].
  - rewrite IH. destruct (decide (j = i0)) as [-> | Hne].
    + rewrite (decide_True (P := i0 ∈ i0 :: js)) by left.
      rewrite (decide_False (P := i0 ∈ js)) by exact Hj. reflexivity.
    + destruct (decide (i0 ∈ js)) as [Hin | Hnin].
      * rewrite (decide_True (P := i0 ∈ j :: js)) by (right; exact Hin). simpl.
        symmetry. apply Permutation_middle.
      * rewrite (decide_False (P := i0 ∈ j :: js)); [ reflexivity | ].
        rewrite elem_of_cons. intros [-> | Hin]; [ contradiction | contradiction ].
Qed.

Lemma filter_ext_elem (P Q : A -> Prop) `{!forall x, Decision (P x)}
    `{!forall x, Decision (Q x)} (l : list A) :
  (forall x, x ∈ l -> (P x <-> Q x)) -> filter P l = filter Q l.
Proof.
  induction l as [| x l IH]; intros Hx; [ reflexivity | ].
  rewrite !filter_cons.
  rewrite IH by (intros y Hy; apply Hx; right; exact Hy).
  destruct (decide (P x)) as [HP | HP], (decide (Q x)) as [HQ | HQ]; try reflexivity.
  - exfalso. apply HQ, (Hx x); [ left | exact HP ].
  - exfalso. apply HP, (Hx x); [ left | exact HQ ].
Qed.

Lemma filter_none (P : A -> Prop) `{!forall x, Decision (P x)} (l : list A) :
  (forall x, x ∈ l -> ~ P x) -> filter P l = [].
Proof.
  induction l as [| x l IH]; intros Hx; [ reflexivity | ].
  rewrite filter_cons_False by (apply Hx; left).
  apply IH. intros y Hy. apply Hx. right. exact Hy.
Qed.

Lemma filter_all (P : A -> Prop) `{!forall x, Decision (P x)} (l : list A) :
  (forall x, x ∈ l -> P x) -> filter P l = l.
Proof.
  induction l as [| x l IH]; intros Hx; [ reflexivity | ].
  rewrite filter_cons_True by (apply Hx; left).
  f_equal. apply IH. intros y Hy. apply Hx. right. exact Hy.
Qed.
End Grouping.

Section Grouped.
Variable range : VertexRange.
Hypothesis Hrange : 0 <= range.1 /\ range.1 <= range.2 /\ range.2 < SInt_modulus.

Lemma local_tail_valid (e : Edge) :
  range.1 <= e.1 < range.2 ->
  local_tail range e = e.1 - range.1
  /\ (Z.to_nat (e.1 - range.1) < local_vertex_count range)%nat.
Proof.
  intros He. unfold local_tail, local_vertex_count, wrap64.
  assert (Hm : SInt_modulus = 18446744073709551616) by reflexivity.
  rewrite Z.mod_small by lia. lia.
Qed.

Lemma grouped_by_tail_Permutation (edges : Edgelist) :
  Forall (fun e : Edge => range.1 <= e.1 < range.2) edges ->
  grouped_by_tail range edges ≡ₚ edges.
Proof.
  induction 1 as [| e edges He Hall IH].
  - unfold grouped_by_tail, edges_of. simpl.
    induction (seq 0 (local_vertex_count range)) as [| j js IHjs]; [ reflexivity | exact IHjs ].
  - destruct (local_tail_valid e He) as [Ht Hlt].
    set (i0 := Z.to_nat (e.1 - range.1)) in *.
    unfold grouped_by_tail.
    rewrite (map_ext_in _
               (fun i => if decide (i = i0) then e :: edges_of range edges i
                         else edges_of range edges i)).
    + rewrite concat_map_insert by apply NoDup_seq.
      rewrite (decide_True (P := i0 ∈ seq 0 (local_vertex_count range)))
        by (apply elem_of_seq; lia).
      simpl. constructor. exact IH.
    + intros i _. unfold edges_of. rewrite filter_cons.
      destruct (decide (local_tail range e = Z.of_nat i)) as [H1 | H1],
               (decide (i = i0)) as [H2 | H2]; try reflexivity; exfalso; unfold i0 in *; lia.
Qed.

Lemma filter_edges_of (edges : Edgelist) (i j : nat) :
  filter (fun e : Edge => local_tail range e = Z.of_nat i) (edges_of range edges j)
  = if decide (i = j) then edges_of range edges i else [].
Proof.
  destruct (decide (i = j)) as [-> | Hne].
  - apply filter_all. intros e He. unfold edges_of in He.
    apply list_elem_of_filter in He. tauto.
  - apply filter_none. intros e He. unfold edges_of in He.
    apply list_elem_of_filter in He. lia.
Qed.

Lemma filter_grouped (edges : Edgelist) (i : nat) (js : list nat) :
  NoDup js ->
  filter (fun e : Edge => local_tail range e = Z.of_nat i)
    (concat (map (edges_of range edges) js))
  = if decide (i ∈ js) then edges_of range edges i else [].
Proof.
  induction 1 as [| j js Hj Hnd IH]; simpl.
  - destruct (decide (i ∈ [])) as [H | H]; [ inversion H | reflexivity ].
  - rewrite filter_app, IH, filter_edges_of.
    destruct (decide (i = j)) as [-> | Hne].
    + rewrite (decide_True (P := j ∈ j :: js)) by left.
      rewrite (decide_False (P := j ∈ js)) by exact Hj. apply app_nil_r.
    + destruct (decide (i ∈ js)) as [Hin | Hnin].
      * rewrite (decide_True (P := i ∈ j :: js)) by (right; exact Hin). reflexivity.
      * rewrite (decide_False (P := i ∈ j :: js)); [ reflexivity | ].
        rewrite elem_of_cons. intros [-> | Hin]; contradiction.
Qed.

Lemma grouped_by_tail_stable (edges : Edgelist) (t : Z) :
  Forall (fun e : Edge => range.1 <= e.1 < range.2) edges ->
  filter (fun e : Edge => e.1 = t) (grouped_by_tail range edges)
  = filter (fun e : Edge => e.1 = t) edges.
Proof.
  intros Hall.
  assert (Hall' : Forall (fun e : Edge => range.1 <= e.1 < range.2)
                    (grouped_by_tail range edges)).
  { rewrite (grouped_by_tail_Permutation edges Hall). exact Hall. }
  rewrite Forall_forall in Hall, Hall'.
  destruct (decide (range.1 <= t < range.2)) as [Ht | Ht].
  - set (i := Z.to_nat (t - range.1)).
    rewrite (filter_ext_elem _ (fun e : Edge => local_tail range e = Z.of_nat i)).
    2:{ intros e He. destruct (local_tail_valid e (Hall' e He)) as [-> _]. unfold i. lia. }
    rewrite (filter_ext_elem (fun e : Edge => e.1 = t)
               (fun e : Edge => local_tail range e = Z.of_nat i) edges).
    2:{ intros e He. destruct (local_tail_valid e (Hall e He)) as [-> _]. unfold i. lia. }
    unfold grouped_by_tail. rewrite filter_grouped by apply NoDup_seq.
    rewrite decide_True; [ reflexivity | ].
    apply elem_of_seq. unfold i, local_vertex_count. lia.
  - rewrite !filter_none; [ reflexivity | | ].
    + intros e He Heq. specialize (Hall e He). lia.
    + intros e He Heq. specialize (Hall' e He). lia.
Qed.
End Grouped.

(** C3. For a valid vertex range and an edge list whose tails all lie in
    the range, [BuildEdgeListFromCSR] applied to the result of
    [BuildCSRFromEdgeList] yields a permutation of the edge list, namely
    the edge list grouped by tail vertex; the edges of every tail come in
    the order they have in the input. *)
Theorem BuildEdgeListFromCSR_BuildCSRFromEdgeList
    (range : VertexRange) (edges : Edgelist) (edge_weights : EdgeWeights) :
  valid_input range edges ->
  let csr := BuildCSRFromEdgeList range edges edge_weights in
  let result := BuildEdgeListFromCSR range csr.1 csr.2 in
  result ≡ₚ edges
  /\ result = grouped_by_tail range edges
  /\ (forall t : Z,
        filter (fun e : Edge => e.1 = t) result = filter (fun e : Edge => e.1 = t) edges).
Proof.
  intros Hvalid csr result.
  assert (Hres : result = grouped_by_tail range edges).
  { apply (round_trip_grouped range edges Hvalid). }
  destruct Hvalid as (H0 & H1 & H2 & Hall).
  rewrite Hres. repeat apply conj.
  - apply grouped_by_tail_Permutation; [ tauto | exact Hall ].
  - reflexivity.
  - intros t. apply grouped_by_tail_stable; [ tauto | exact Hall ].
Qed.

Lemma BuildEdgeListFromCSR_BuildCSRFromEdgeList_witness :
  let edges := [(3, 7); (2, 1); (4, 4); (2, 0); (3, 3); (2, 1)] in
  BuildEdgeListFromCSR (2, 5) (BuildCSRFromEdgeList (2, 5) edges []).1
    (BuildCSRFromEdgeList (2, 5) edges []).2
  = [(2, 1); (2, 0); (2, 1); (3, 7); (3, 3); (4, 4)].
Proof.
  intros edges.
  destruct (BuildEdgeListFromCSR_BuildCSRFromEdgeList (2, 5) edges []) as (_ & H & _).
  - unfold valid_input. simpl. repeat split; try lia; try reflexivity.
    repeat constructor; simpl; lia.
  - etransitivity; [ exact H | reflexivity ].
Defined.

(** ** The chunk-count checks of the factory *)

Lemma SInt_modulus_eq : SInt_modulus = 18446744073709551616.
Proof. reflexivity. Qed.

Lemma PEID_bound_eq : PEID_bound = 2147483648.
Proof. reflexivity. Qed.

(** Closes a goal [is_SInt z] by arithmetic. *)
Ltac in_SInt tac := unfold is_SInt; rewrite SInt_modulus_eq; tac.

(** [round_sqrt] is the integer nearest to the square root. *)
Lemma round_sqrt_nearest v :
  0 <= v ->
  let r := Factory.round_sqrt v in
  0 <= r /\ 4 * v < (2 * r + 1) * (2 * r + 1)
  /\ (r = 0 \/ (2 * r - 1) * (2 * r - 1) < 4 * v).
Proof.
  intros Hv. unfold Factory.round_sqrt.
  pose proof (Z.sqrt_spec v Hv) as Hs. pose proof (Z.sqrt_nonneg v) as Hn.
  unfold Z.succ in Hs. set (s := Z.sqrt v) in *.
  cbv zeta. destruct (Z.leb_spec (v - s * s) s) as [Hle | Hgt].
  - split; [ lia | split; [ nia | ] ].
    destruct (decide (s = 0)) as [E | E]; [ left; exact E | right; nia ].
  - split; [ lia | split; [ nia | right; nia ] ].
Qed.

Lemma round_sqrt_square r : 0 <= r -> Factory.round_sqrt (r * r) = r.
Proof.
  intros Hr. unfold Factory.round_sqrt. rewrite Z.sqrt_square by exact Hr.
  rewrite Z.sub_diag. destruct (Z.leb_spec 0 r); [ reflexivity | lia ].
Qed.

Lemma round_sqrt_bound v : is_SInt v -> 0 <= Factory.round_sqrt v <= 4294967296.
Proof.
  intros [Hv0 Hv1]. rewrite SInt_modulus_eq in Hv1.
  pose proof (round_sqrt_nearest v Hv0) as (H0 & H1 & H2).
  split; [ exact H0 | ]. nia.
Qed.

Lemma IsSquare_true_iff v :
  is_SInt v ->
  Factory.IsSquare v = true <-> Factory.round_sqrt v * Factory.round_sqrt v = v.
Proof.
  intros Hv. pose proof (round_sqrt_bound v Hv) as Hr.
  unfold Factory.IsSquare. cbv zeta. rewrite Z.eqb_eq.
  destruct Hv as [Hv0 Hv1]. rewrite SInt_modulus_eq in Hv1.
  destruct (decide (Factory.round_sqrt v = 4294967296)) as [E | E].
  - rewrite E. change (wrap64 (4294967296 * 4294967296)) with 0.
    pose proof (round_sqrt_nearest v Hv0) as (H0 & H1 & H2). rewrite E in *. lia.
  - rewrite wrap64_small; [ reflexivity | ].
    unfold is_SInt. rewrite SInt_modulus_eq. nia.
Qed.

Lemma IsSquare_perfect v :
  is_SInt v -> Factory.IsSquare v = true <-> exists r, 0 <= r /\ r * r = v.
Proof.
  intros Hv. rewrite IsSquare_true_iff by exact Hv. split.
  - intros H. exists (Factory.round_sqrt v). split; [ | exact H ].
    apply round_sqrt_bound. exact Hv.
  - intros (r & Hr & <-). rewrite round_sqrt_square by exact Hr. reflexivity.
Qed.

Lemma IsPowerOfTwo_pow v :
  0 < v < SInt_modulus -> Factory.IsPowerOfTwo v = true -> exists e, 0 <= e /\ v = 2 ^ e.
Proof.
  intros Hv H. unfold Factory.IsPowerOfTwo in H. apply Z.eqb_eq in H.
  rewrite wrap64_small in H by (unfold is_SInt; lia).
  exists (Z.log2 v). split; [ apply Z.log2_nonneg | ].
  pose proof (Z.log2_spec v ltac:(lia)) as Hlog.
  destruct (decide (v = 2 ^ Z.log2 v)) as [E | E]; [ exact E | exfalso ].
  assert (Hlog' : Z.log2 (v - 1) = Z.log2 v).
  { apply Z.log2_unique; [ apply Z.log2_nonneg | lia ]. }
  assert (Hb : Z.testbit (Z.land v (v - 1)) (Z.log2 v) = true).
  { rewrite Z.land_spec. rewrite Z.bit_log2 by lia.
    assert (Hb' : Z.testbit (v - 1) (Z.log2 (v - 1)) = true).
    { apply Z.bit_log2.
      pose proof (Z.pow_pos_nonneg 2 (Z.log2 v) ltac:(lia) (Z.log2_nonneg v)). lia. }
    rewrite Hlog' in Hb'. rewrite Hb'. reflexivity. }
  rewrite H, Z.bits_0 in Hb. discriminate.
Qed.

Lemma pow2_even_square j : 0 <= j -> 2 ^ (2 * j) = 2 ^ j * 2 ^ j.
Proof. intros Hj. rewrite <- Z.pow_add_r by lia. f_equal. lia. Qed.

Lemma FindSquareMultipleOf_loop_spec fuel cur value :
  1 <= cur -> 1 <= value < PEID_bound ->
  exists r, 0 < r
    /\ Factory.FindSquareMultipleOf_loop fuel cur value = r * r
    /\ (value | r * r).
Proof.
  rewrite PEID_bound_eq. revert cur. induction fuel as [| fuel IH]; intros cur Hcur Hvalue.
  - exists value. simpl. rewrite wrap64_small by (in_SInt nia).
    split; [ lia | split; [ reflexivity | apply Z.divide_factor_l ] ].
  - simpl. destruct (Z.ltb_spec cur value) as [Hlt | Hge].
    + rewrite (wrap64_small (cur * cur)) by (in_SInt nia).
      destruct (Z.eqb_spec ((cur * cur) mod value) 0) as [Hmod | Hmod].
      * exists cur. split; [ lia | split; [ reflexivity | ] ].
        apply Z.mod_divide; [ lia | exact Hmod ].
      * rewrite (wrap64_small (cur + 1)) by (in_SInt lia).
        apply IH; lia.
    + exists value. rewrite wrap64_small by (in_SInt nia).
      split; [ lia | split; [ reflexivity | apply Z.divide_factor_l ] ].
Qed.

(** The fuel [FindSquareMultipleOf] passes is the number of values [cur]
    can take: more fuel changes nothing. *)
Lemma FindSquareMultipleOf_loop_fuel fuel cur value :
  0 <= cur -> value < PEID_bound ->
  (Z.to_nat (value - cur) <= fuel)%nat ->
  Factory.FindSquareMultipleOf_loop fuel cur value
  = Factory.FindSquareMultipleOf_loop (Z.to_nat (value - cur)) cur value.
Proof.
  rewrite PEID_bound_eq. revert cur. induction fuel as [| fuel IH]; intros cur Hcur Hvalue Hfuel.
  - replace (Z.to_nat (value - cur)) with O by lia. reflexivity.
  - destruct (Z.ltb_spec cur value) as [Hlt | Hge].
    + replace (Z.to_nat (value - cur)) with (S (Z.to_nat (value - (cur + 1)))) by lia.
      simpl. destruct (Z.ltb_spec cur value); [ | lia ].
      destruct (wrap64 (cur * cur) mod value =? 0); [ reflexivity | ].
      rewrite (wrap64_small (cur + 1)) by (in_SInt lia).
      apply IH; lia.
    + replace (Z.to_nat (value - cur)) with O by lia.
      simpl. destruct (Z.ltb_spec cur value); [ lia | reflexivity ].
Qed.

Lemma FindSquareMultipleOf_spec value :
  1 <= value < PEID_bound ->
  exists r, 0 < r /\ Factory.FindSquareMultipleOf value = r * r /\ (value | r * r).
Proof.
  intros Hvalue. pose proof Hvalue as Hvalue'. rewrite PEID_bound_eq in Hvalue'.
  assert (HS : is_SInt value) by (in_SInt lia).
  unfold Factory.FindSquareMultipleOf.
  destruct (Factory.IsSquare value) eqn:Hsq.
  - apply IsSquare_perfect in Hsq as (r & Hr & Hrr); [ | exact HS ].
    exists r. split; [ nia | split; [ symmetry; exact Hrr | rewrite Hrr; reflexivity ] ].
  - destruct (Factory.IsPowerOfTwo value) eqn:Hpow.
    + apply IsPowerOfTwo_pow in Hpow as (e & He & Hve); [ | rewrite SInt_modulus_eq; lia ].
      rewrite wrap64_small by (in_SInt lia).
      pose proof (Z.div_mod e 2 ltac:(lia)) as Hdm.
      pose proof (Z.mod_pos_bound e 2 ltac:(lia)) as Hm.
      assert (Hj : 0 <= e / 2) by (apply Z.div_pos; lia).
      destruct (decide (e mod 2 = 0)) as [E0 | E1].
      * exfalso. assert (Hsq' : Factory.IsSquare value = true).
        { apply IsSquare_perfect; [ exact HS | ]. exists (2 ^ (e / 2)).
          split; [ apply Z.pow_nonneg; lia | ].
          rewrite <- pow2_even_square by exact Hj. rewrite Hve. f_equal. lia. }
        congruence.
      * exists (2 ^ (e / 2 + 1)).
        assert (Hpos : 0 < 2 ^ (e / 2 + 1)) by (apply Z.pow_pos_nonneg; lia).
        split; [ exact Hpos | ].
        assert (Heq : 2 * value = 2 ^ (e / 2 + 1) * 2 ^ (e / 2 + 1)).
        { rewrite <- pow2_even_square by lia. rewrite Hve.
          rewrite <- (Z.pow_succ_r 2 e) by lia. f_equal. lia. }
        split; [ exact Heq | ]. rewrite <- Heq. apply Z.divide_factor_r.
    + apply FindSquareMultipleOf_loop_spec; [ | exact Hvalue ].
      pose proof (Z.sqrt_spec value ltac:(lia)) as Hs. pose proof (Z.sqrt_nonneg value).
      destruct (decide (Z.sqrt value = 0)) as [E | E]; [ | lia ].
      rewrite E in Hs. simpl in Hs. lia.
Qed.

Section EnsureSquare.
Context {HPFloat : Type}.

(** C5. For a chunk count [k] other than zero, [EnsureSquareChunkSize]
    accepts it, leaving the configuration as it is, exactly when the square
    of the integer nearest to its square root is [k]; otherwise it throws
    [ConfigurationError] with the text "number of chunks must be square".
    For [k = 0] it throws nothing and sets [k] to a positive perfect square
    that is a multiple of the number of processes. *)
Theorem EnsureSquareChunkSize_spec (config : Ctx.PGeneratorConfig HPFloat) (size : Z) :
  is_SInt (Ctx.k config) -> 1 <= size < PEID_bound ->
  let k := Ctx.k config in
  (k <> 0 ->
     (Factory.round_sqrt k ^ 2 = k ->
        Factory.EnsureSquareChunkSize config size = Ok config)
     /\ (Factory.round_sqrt k ^ 2 <> k ->
           Factory.EnsureSquareChunkSize config size
           = Throw (ConfigurationError "number of chunks must be square")))
  /\ (k = 0 ->
        exists root,
          0 < root /\ (size | root * root)
          /\ Factory.EnsureSquareChunkSize config size = Ok (Ctx.set_k (root * root) config)).
Proof.
  intros Hk Hsize k. split.
  - intros Hk0. unfold Factory.EnsureSquareChunkSize. fold k.
    destruct (Z.eqb_spec k 0) as [E | _]; [ contradiction | ].
    pose proof (IsSquare_true_iff k Hk) as Hiff.
    replace (Factory.round_sqrt k ^ 2) with (Factory.round_sqrt k * Factory.round_sqrt k) by lia.
    destruct (Factory.IsSquare k); simpl; split; intros H; try reflexivity.
    + exfalso. apply H, Hiff. reflexivity.
    + apply Hiff in H. discriminate H.
  - intros Hk0. unfold Factory.EnsureSquareChunkSize. fold k. rewrite Hk0. simpl.
    assert (Hs : to_SInt size = size).
    { apply wrap64_small. unfold is_SInt. rewrite SInt_modulus_eq.
      rewrite PEID_bound_eq in Hsize. lia. }
    rewrite Hs.
    destruct (FindSquareMultipleOf_spec size Hsize) as (r & Hr & Heq & Hdiv).
    exists r. rewrite Heq. auto.
Qed.

End EnsureSquare.

Lemma EnsureSquareChunkSize_spec_witness :
  let config :=
    Ctx.mkConfig (HPFloat := unit) Ctx.RGG_2D 16 0 3 tt tt tt false tt 0 0 0 0 tt tt tt false
      true false false false Ctx.NONE in
  Factory.EnsureSquareChunkSize config 4
  = Throw (ConfigurationError "number of chunks must be square").
Proof.
  intros config.
  destruct (EnsureSquareChunkSize_spec config 4) as [H _].
  - unfold is_SInt. vm_compute. split; [ discriminate | reflexivity ].
  - vm_compute. split; [ discriminate | reflexivity ].
  - apply H; vm_compute; discriminate.
Defined.

(** ** The facade *)

Section FacadeFacts.
Context {HPFloat : Type} (ROOT : Z).
Context {factory : Factory.GeneratorFactory HPFloat} {collaborators : Facade.Collaborators HPFloat}.

Lemma cerr_lines_app (t1 t2 : list (Facade.action (HPFloat := HPFloat))) :
  Facade.cerr_lines (t1 ++ t2) = Facade.cerr_lines t1 ++ Facade.cerr_lines t2.
Proof. unfold Facade.cerr_lines. apply omap_app. Qed.

(** C7. When [NormalizeParameters] throws [ConfigurationError] in
    [Generate], the process ends with [std::exit(1)] before a generator is
    constructed, whatever its rank; the text of the error goes to
    [std::cerr] on the process of rank [ROOT] and on no other. *)
Theorem Generate_ConfigurationError (config_template : Ctx.PGeneratorConfig HPFloat)
    (comm : Facade.Comm) (w : string) :
  Factory.factory_NormalizeParameters config_template (Facade.comm_size comm)
    ((Facade.comm_rank comm =? ROOT) && negb (Ctx.quiet config_template))
  = Throw (ConfigurationError w) ->
  let run := Facade.Generate ROOT config_template comm in
  run.2 = Facade.Exited 1
  /\ ~ Facade.constructs_generator run.1
  /\ Facade.cerr_lines run.1
     = if Facade.comm_rank comm =? ROOT
       then [Facade.Text ("Error: " +:+ w +:+ Facade.newline)] else [].
Proof.
  intros Hthrow. unfold Facade.Generate. rewrite Hthrow. cbv zeta. cbn [fst snd].
  split; [ reflexivity | ]. split.
  - intros (c & r & sz & Hin). apply elem_of_app in Hin as [Hin | Hin].
    + unfold Facade.when in Hin.
      destruct ((Facade.comm_rank comm =? ROOT) && negb (Ctx.quiet config_template)
                && Ctx.print_header config_template).
      * apply list_elem_of_singleton in Hin. discriminate Hin.
      * inversion Hin.
    + unfold Facade.when in Hin. destruct (Facade.comm_rank comm =? ROOT).
      * apply list_elem_of_singleton in Hin. discriminate Hin.
      * inversion Hin.
  - rewrite cerr_lines_app. unfold Facade.when.
    destruct ((Facade.comm_rank comm =? ROOT) && negb (Ctx.quiet config_template)
              && Ctx.print_header config_template);
      destruct (Facade.comm_rank comm =? ROOT); reflexivity.
Qed.

(** The reduction of the validation results yields failure only when the
    validation has failed on every process. *)
Lemma MPI_Allreduce_LOR_false (mine : bool) (peers : list bool) :
  Facade.MPI_Allreduce_LOR mine peers = false <-> mine = false /\ Forall (fun b => b = false) peers.
Proof.
  unfold Facade.MPI_Allreduce_LOR. induction peers as [| b peers IH]; simpl.
  - split; [ intros ->; split; [ reflexivity | constructor ] | tauto ].
  - rewrite orb_false_iff, IH, Forall_cons. tauto.
Qed.

Lemma MPI_Allreduce_LOR_true (mine : bool) (peers : list bool) :
  Facade.MPI_Allreduce_LOR mine peers = true <-> mine = true \/ Exists (fun b => b = true) peers.
Proof.
  unfold Facade.MPI_Allreduce_LOR. induction peers as [| b peers IH]; simpl.
  - rewrite Exists_nil. tauto.
  - rewrite orb_true_iff, IH, Exists_cons. tauto.
Qed.

(** X13. With the validation switched on, a process leaves [Generate] through
    [std::exit(1)] exactly when the validation has failed on itself and on
    every other process. *)
Lemma Generate_exits_iff_all_fail (config_template config : Ctx.PGeneratorConfig HPFloat)
    (comm : Facade.Comm) :
  Factory.factory_NormalizeParameters config_template (Facade.comm_size comm)
    ((Facade.comm_rank comm =? ROOT) && negb (Ctx.quiet config_template))
  = Ok config ->
  Ctx.validate_simple_graph config = true ->
  let graph := Facade.generated_graph config comm in
  let run := Facade.Generate ROOT config_template comm in
  (run.2 = Facade.Exited 1
   <-> Facade.ValidateSimpleGraph (edges graph) (vertex_range graph) comm = false
       /\ Forall (fun b => b = false) (Facade.peers_success comm))
  /\ (run.2 = Facade.Returned graph
      <-> Facade.ValidateSimpleGraph (edges graph) (vertex_range graph) comm = true
          \/ Exists (fun b => b = true) (Facade.peers_success comm)).
Proof.
  intros Hnorm Hvalidate graph run.
  pose proof (MPI_Allreduce_LOR_false
                (Facade.ValidateSimpleGraph (edges graph) (vertex_range graph) comm)
                (Facade.peers_success comm)) as Hred.
  assert (Hrun : run.2
            = if negb (Facade.MPI_Allreduce_LOR
                         (Facade.ValidateSimpleGraph (edges graph) (vertex_range graph) comm)
                         (Facade.peers_success comm))
              then Facade.Exited 1 else Facade.Returned graph).
  { unfold run, Facade.Generate. rewrite Hnorm. cbv zeta. rewrite Hvalidate.
    fold (Facade.generated_graph config comm). fold graph.
    destruct (Facade.MPI_Allreduce_LOR _ _); reflexivity. }
  rewrite Hrun. pose proof (MPI_Allreduce_LOR_true
                (Facade.ValidateSimpleGraph (edges graph) (vertex_range graph) comm)
                (Facade.peers_success comm)) as Hred'.
  destruct (Facade.MPI_Allreduce_LOR _ _) eqn:E; simpl; split; split.
  - discriminate.
  - intros H. apply Hred in H. discriminate H.
  - intros _. apply Hred'. reflexivity.
  - reflexivity.
  - intros _. apply Hred. reflexivity.
  - reflexivity.
  - discriminate.
  - intros H. apply Hred' in H. discriminate H.
Qed.

End FacadeFacts.

Lemma Generate_ConfigurationError_witness :
  let comm := Facade.mkComm 1 4 [] [] [] in
  (Facade.Generate (factory := Factory.SquareChunkFactory)
     (collaborators := Facade.DefectiveCollaborators) 0 (Facade.library_config 3 false) comm).2
  = Facade.Exited 1.
Proof.
  intros comm.
  destruct (Generate_ConfigurationError 0 (factory := Factory.SquareChunkFactory)
              (collaborators := Facade.DefectiveCollaborators)
              (Facade.library_config 3 false) comm "number of chunks must be square")
    as (H & _).
  - reflexivity.
  - exact H.
Defined.

(** C1 fails on the code. Two processes validate their slices; the
    validation succeeds on rank 0 and fails on rank 1, whose slice holds a
    self-loop. The reduction combines the two success flags with a logical
    OR, so that both processes see success: neither exits, and the process
    whose validation failed returns its graph as well. *)
Theorem Generate_validation_false_negative :
  let config := Facade.library_config 0 true in
  let run (comm : Facade.Comm) :=
    Facade.Generate (factory := Factory.BaseFactory)
      (collaborators := Facade.DefectiveCollaborators) 0 config comm in
  let graph0 := mkGraph (0, 1) EDGE_LIST [(0, 1)] [] [] [] [] ([], []) in
  let graph1 := mkGraph (1, 2) EDGE_LIST [(1, 1)] [] [] [] [] ([], []) in
  let comm0 := Facade.mkComm 0 2 [1] [1] [false] in
  let comm1 := Facade.mkComm 1 2 [1] [1] [true] in
  Facade.ValidateSimpleGraph (Collaborators := Facade.DefectiveCollaborators)
    (edges graph0) (vertex_range graph0) comm0 = true
  /\ Facade.ValidateSimpleGraph (Collaborators := Facade.DefectiveCollaborators)
       (edges graph1) (vertex_range graph1) comm1 = false
  /\ (run comm0).2 = Facade.Returned graph0
  /\ (run comm1).2 = Facade.Returned graph1.
Proof. repeat split. Qed.

(** ** The option string *)

Lemma ParseOptionString_step_key (result : gmap string string) (pair : string) :
  exists value,
    OptionString.ParseOptionString_step result pair
    = <[OptionString.key_of pair := value]> result.
Proof.
  unfold OptionString.ParseOptionString_step, OptionString.key_of.
  destruct (OptionString.find "=" pair); eexists; reflexivity.
Qed.

Lemma ParseOptionString_step_other (result : gmap string string) (pair key : string) :
  OptionString.key_of pair <> key ->
  OptionString.ParseOptionString_step result pair !! key = result !! key.
Proof.
  intros Hne. destruct (ParseOptionString_step_key result pair) as [value ->].
  apply lookup_insert_ne. exact Hne.
Qed.

Lemma ParseOptionString_step_flag (result : gmap string string) (pair : string) :
  OptionString.find "=" pair = None ->
  OptionString.ParseOptionString_step result pair !! pair = Some "1".
Proof.
  intros Hfind. unfold OptionString.ParseOptionString_step. rewrite Hfind.
  apply lookup_insert_eq.
Qed.

Lemma foldl_step_other (pairs : list string) (result : gmap string string) (key : string) :
  Forall (fun pair => OptionString.key_of pair <> key) pairs ->
  foldl OptionString.ParseOptionString_step result pairs !! key = result !! key.
Proof.
  revert result. induction pairs as [| pair pairs IH]; intros result Hall; [ reflexivity | ].
  apply Forall_cons in Hall as [Hne Hall]. simpl.
  rewrite IH by exact Hall. apply ParseOptionString_step_other. exact Hne.
Qed.

Section OptionStringFacts.
Context {HPFloat : Type} `{OptionString.FloatOps HPFloat}.
Variable GetGeneratorTypeMap : gmap string Ctx.GeneratorType.

Lemma assign_keeps_n {T : Type}
    (set : T -> Ctx.PGeneratorConfig HPFloat -> Ctx.PGeneratorConfig HPFloat)
    (value : result T) :
  (forall v config, Ctx.n (set v config) = Ctx.n config) ->
  OptionString.keeps_n (OptionString.assign set value).
Proof.
  intros Hset config config' Hst. unfold OptionString.assign in Hst.
  destruct value as [v | e]; simpl in Hst; [ | discriminate Hst ].
  inversion Hst. apply Hset.
Qed.

Lemma run_keeps_n (statements : list OptionString.statement)
    (config : Ctx.PGeneratorConfig HPFloat) :
  Forall OptionString.keeps_n statements ->
  Ctx.n (OptionString.run statements config).1 = Ctx.n config.
Proof.
  revert config. induction statements as [| st statements IH]; intros config Hall;
    [ reflexivity | ].
  apply Forall_cons in Hall as [Hst Hall]. simpl.
  destruct (st config) as [config' | e] eqn:E; [ | reflexivity ].
  rewrite IH by exact Hall. apply (Hst _ _ E).
Qed.

Lemma run_cons_Ok (st : OptionString.statement) (statements : list OptionString.statement)
    (config config' : Ctx.PGeneratorConfig HPFloat) :
  st config = Ok config' ->
  OptionString.run (st :: statements) config = OptionString.run statements config'.
Proof. intros Hst. simpl. rewrite Hst. reflexivity. Qed.

Lemma shift_left_1ull_small count :
  0 <= count < 64 -> OptionString.shift_left_1ull count = Ok (Z.shiftl 1 count).
Proof.
  intros Hc. unfold OptionString.shift_left_1ull.
  destruct (Z.ltb_spec count 64); [ | lia ]. f_equal.
  apply wrap64_small. unfold is_SInt. rewrite Z.shiftl_1_l.
  split; [ apply Z.pow_nonneg; lia | ].
  apply Z.pow_lt_mono_r; lia.
Qed.

(** C8. In the option string a pair without ['='] is a flag: it is stored
    with the value "1", which reads as true, unless a later pair sets the
    same key again. When the key "n" is absent and the key "N" holds a
    number below 64, [config.n] becomes [1 << N]. *)
Theorem GenerateFromOptionString_flag_and_n (options_str : string) :
  (forall (before after : list string) (pair : string) (default_value : bool),
     OptionString.getline_all options_str "" false = before ++ pair :: after ->
     OptionString.find "=" pair = None ->
     Forall (fun later => OptionString.key_of later <> pair) after ->
     OptionString.ParseOptionString options_str !! pair = Some "1"
     /\ OptionString.get_bool_or_default (OptionString.ParseOptionString options_str)
          pair default_value = true)
  /\ (forall (config : Ctx.PGeneratorConfig HPFloat) (type : Ctx.GeneratorType)
        (second : string) (count : Z),
        let options := OptionString.ParseOptionString options_str in
        GetGeneratorTypeMap !! (OptionString.subscript options "type").1 = Some type ->
        options !! "n" = None ->
        options !! "N" = Some second ->
        OptionString.stoll second = Ok count ->
        0 <= count < 64 ->
        Ctx.n (OptionString.GenericGenerateFromOptionString GetGeneratorTypeMap
                 options_str config).1
        = Z.shiftl 1 count).
Proof.
  split.
  - intros before after pair default_value Htokens Hfind Hafter.
    assert (Hlookup : OptionString.ParseOptionString options_str !! pair = Some "1").
    { unfold OptionString.ParseOptionString. rewrite Htokens.
      rewrite foldl_app. simpl. rewrite foldl_step_other by exact Hafter.
      apply ParseOptionString_step_flag. exact Hfind. }
    split; [ exact Hlookup | ].
    unfold OptionString.get_bool_or_default. rewrite Hlookup. reflexivity.
  - intros config type second count options Htype Hn HN Hstoll Hcount.
    unfold OptionString.GenericGenerateFromOptionString. fold options.
    rewrite Htype.
    assert (Hsub : forall key, key <> "type" ->
              (OptionString.subscript options "type").2 !! key = options !! key).
    { intros key Hkey. unfold OptionString.subscript.
      destruct (options !! "type"); [ reflexivity | ].
      simpl. apply lookup_insert_ne. congruence. }
    set (options' := (OptionString.subscript options "type").2) in *.
    assert (HsN : OptionString.get_sint_or_default options' "N" 0 = Ok count).
    { unfold OptionString.get_sint_or_default. rewrite Hsub by discriminate.
      rewrite HN, Hstoll. simpl. f_equal. apply wrap64_small.
      unfold is_SInt. change SInt_modulus with 18446744073709551616. lia. }
    assert (Hsn : forall d, OptionString.get_sint_or_default options' "n" d = Ok d).
    { intros d. unfold OptionString.get_sint_or_default. rewrite Hsub by discriminate.
      rewrite Hn. reflexivity. }
    rewrite (run_cons_Ok _ _ config (Ctx.set_generator type config)) by reflexivity.
    rewrite (run_cons_Ok _ _ _ (Ctx.set_n (Z.shiftl 1 count) (Ctx.set_generator type config))).
    2:{ unfold OptionString.assign. rewrite HsN. simpl.
        rewrite (shift_left_1ull_small count Hcount). simpl.
        rewrite Hsn. reflexivity. }
    rewrite run_keeps_n; [ reflexivity | ].
    repeat constructor; apply assign_keeps_n; intros; reflexivity.
Qed.

End OptionStringFacts.

Lemma GenerateFromOptionString_flag_and_n_witness :
  let options_str := "type=rgg2d;N=10;periodic" in
  OptionString.get_bool_or_default (OptionString.ParseOptionString options_str)
    "periodic" false = true
  /\ Ctx.n (OptionString.GenericGenerateFromOptionString (H := OptionString.UnitFloat)
              OptionString.example_type_map options_str (Facade.library_config 0 false)).1
     = 1024.
Proof.
  intros options_str.
  destruct (GenerateFromOptionString_flag_and_n (H := OptionString.UnitFloat)
              OptionString.example_type_map options_str) as [Hflag Hn].
  split.
  - apply (Hflag ["type=rgg2d"; "N=10"] [] "periodic" false);
      [ reflexivity | reflexivity | constructor ].
  - apply (Hn (Facade.library_config 0 false) Ctx.RGG_2D "10" 10);
      [ reflexivity | reflexivity | reflexivity | reflexivity | lia ].
Defined.

(** * Further properties *)

Lemma IsPowerOfTwo_of_pow e :
  0 <= e -> 2 ^ e < SInt_modulus -> Factory.IsPowerOfTwo (2 ^ e) = true.
Proof.
  intros He Hlt. unfold Factory.IsPowerOfTwo. apply Z.eqb_eq.
  pose proof (Z.pow_pos_nonneg 2 e ltac:(lia) He) as Hpos.
  rewrite wrap64_small by (unfold is_SInt; lia).
  replace (2 ^ e - 1) with (Z.ones e) by (rewrite Z.ones_equiv; lia).
  rewrite Z.land_ones by exact He. apply Z.mod_same. lia.
Qed.

Section PowerOfTwo.
Context {HPFloat : Type}.

(** X1. For a process count of its C type, [EnsurePowerOfTwoCommunicatorSize]
    returns the configuration unchanged when the count is a power of two,
    and throws [ConfigurationError] with the text "number of PEs must be a
    power of two" when it is not. *)
Theorem EnsurePowerOfTwoCommunicatorSize_spec
    (config : Ctx.PGeneratorConfig HPFloat) (size : Z) :
  1 <= size < PEID_bound ->
  ((exists e, 0 <= e /\ size = 2 ^ e) ->
     Factory.EnsurePowerOfTwoCommunicatorSize config size = Ok config)
  /\ (~ (exists e, 0 <= e /\ size = 2 ^ e) ->
        Factory.EnsurePowerOfTwoCommunicatorSize config size
        = Throw (ConfigurationError "number of PEs must be a power of two")).
Proof.
  intros Hsize. pose proof Hsize as Hsize'. rewrite PEID_bound_eq in Hsize'.
  assert (Hs : to_SInt size = size) by (apply wrap64_small; in_SInt lia).
  unfold Factory.EnsurePowerOfTwoCommunicatorSize. rewrite Hs. split.
  - intros (e & He & ->). rewrite IsPowerOfTwo_of_pow; [ reflexivity | exact He | ].
    rewrite SInt_modulus_eq. lia.
  - intros Hno. destruct (Factory.IsPowerOfTwo size) eqn:E; [ | reflexivity ].
    exfalso. apply Hno. apply IsPowerOfTwo_pow; [ rewrite SInt_modulus_eq; lia | exact E ].
Qed.
End PowerOfTwo.

Lemma EnsurePowerOfTwoCommunicatorSize_spec_witness :
  Factory.EnsurePowerOfTwoCommunicatorSize (Facade.library_config 0 false) 8
  = Ok (Facade.library_config 0 false)
  /\ Factory.EnsurePowerOfTwoCommunicatorSize (Facade.library_config 0 false) 6
     = Throw (ConfigurationError "number of PEs must be a power of two").
Proof.
  split.
  - apply (EnsurePowerOfTwoCommunicatorSize_spec (Facade.library_config 0 false) 8).
    + vm_compute. split; [ discriminate | reflexivity ].
    + exists 3. split; [ lia | reflexivity ].
  - reflexivity.
Defined.

(** X2. On every 64-bit value [IsSquare] answers whether the value is a
    perfect square; the wrap-around of [root * root] produces no false
    positive, not even next to [2^64]. *)
Theorem IsSquare_recognises_squares (value : Z) :
  is_SInt value ->
  Factory.IsSquare value = true <-> exists root, 0 <= root /\ root * root = value.
Proof. apply IsSquare_perfect. Qed.

Lemma IsSquare_recognises_squares_witness :
  Factory.IsSquare 18446744065119617025 = true.
Proof.
  apply (IsSquare_recognises_squares 18446744065119617025).
  - vm_compute. split; [ discriminate | reflexivity ].
  - exists 4294967295. split; [ lia | reflexivity ].
Defined.

Lemma FindSquareMultipleOf_loop_least fuel cur value r :
  1 <= value < PEID_bound -> 1 <= cur <= r -> (value | r * r) ->
  (Z.to_nat (value - cur) <= fuel)%nat ->
  Factory.FindSquareMultipleOf_loop fuel cur value <= r * r.
Proof.
  rewrite PEID_bound_eq. intros Hvalue. revert cur.
  induction fuel as [| fuel IH]; intros cur Hcur Hdiv Hfuel.
  - simpl. rewrite wrap64_small by (in_SInt nia). nia.
  - simpl. destruct (Z.ltb_spec cur value) as [Hlt | Hge].
    + rewrite (wrap64_small (cur * cur)) by (in_SInt nia).
      destruct (Z.eqb_spec ((cur * cur) mod value) 0) as [Hmod | Hmod]; [ nia | ].
      rewrite (wrap64_small (cur + 1)) by (in_SInt lia).
      assert (Hne : cur <> r).
      { intros ->. apply Hmod. apply Z.mod_divide; [ lia | exact Hdiv ]. }
      apply IH; [ lia | exact Hdiv | lia ].
    + rewrite wrap64_small by (in_SInt nia). nia.
Qed.

Lemma FindSquareMultipleOf_minimal (value r : Z) :
  1 <= value < PEID_bound -> 0 < r -> (value | r * r) ->
  Factory.FindSquareMultipleOf value <= r * r.
Proof.
  intros Hvalue Hr Hdiv. pose proof Hvalue as Hvalue'. rewrite PEID_bound_eq in Hvalue'.
  assert (HS : is_SInt value) by (in_SInt lia).
  assert (Hle : value <= r * r) by (apply Z.divide_pos_le; [ nia | exact Hdiv ]).
  unfold Factory.FindSquareMultipleOf.
  destruct (Factory.IsSquare value) eqn:Hsq; [ exact Hle | ].
  destruct (Factory.IsPowerOfTwo value) eqn:Hpow.
  - rewrite wrap64_small by (in_SInt lia).
    destruct Hdiv as [c Hc].
    destruct (decide (c = 1)) as [-> | Hc1]; [ | nia ].
    exfalso. assert (Factory.IsSquare value = true); [ | congruence ].
    apply IsSquare_perfect; [ exact HS | ]. exists r. split; lia.
  - pose proof (Z.sqrt_spec value ltac:(lia)) as Hs. pose proof (Z.sqrt_nonneg value).
    unfold Z.succ in Hs.
    apply FindSquareMultipleOf_loop_least; [ exact Hvalue | | exact Hdiv | lia ].
    split; [ | nia ].
    destruct (decide (Z.sqrt value = 0)) as [E | E]; [ | lia ].
    rewrite E in Hs. simpl in Hs. lia.
Qed.

(** X3. For a process count, [FindSquareMultipleOf] returns the least
    positive perfect square that is a multiple of it. *)
Theorem FindSquareMultipleOf_least (value : Z) :
  1 <= value < PEID_bound ->
  let square := Factory.FindSquareMultipleOf value in
  (exists root, 0 < root /\ square = root * root /\ (value | square))
  /\ (forall r, 0 < r -> (value | r * r) -> square <= r * r).
Proof.
  intros Hvalue square. split.
  - destruct (FindSquareMultipleOf_spec value Hvalue) as (root & H0 & H1 & H2).
    exists root. unfold square. rewrite H1. auto.
  - intros r Hr Hdiv. apply FindSquareMultipleOf_minimal; assumption.
Qed.

Lemma FindSquareMultipleOf_least_witness :
  Factory.FindSquareMultipleOf 12 <= 6 * 6.
Proof.
  refine (proj2 (FindSquareMultipleOf_least 12 _) 6 _ _).
  - vm_compute. split; [ discriminate | reflexivity ].
  - lia.
  - exists 3. reflexivity.
Defined.

Section SquareStable.
Context {HPFloat : Type}.

(** X4. A configuration that [EnsureSquareChunkSize] returns has a chunk
    count that is not zero and is a perfect square, and
    [EnsureSquareChunkSize] accepts it unchanged, for any process count. *)
Theorem EnsureSquareChunkSize_stable
    (config config' : Ctx.PGeneratorConfig HPFloat) (size size' : Z) :
  is_SInt (Ctx.k config) -> 1 <= size < PEID_bound ->
  Factory.EnsureSquareChunkSize config size = Ok config' ->
  Ctx.k config' <> 0
  /\ Factory.IsSquare (Ctx.k config') = true
  /\ Factory.EnsureSquareChunkSize config' size' = Ok config'.
Proof.
  intros Hk Hsize Hok. pose proof Hsize as Hsize'. rewrite PEID_bound_eq in Hsize'.
  assert (Hgoal : Ctx.k config' <> 0 /\ Factory.IsSquare (Ctx.k config') = true).
  { unfold Factory.EnsureSquareChunkSize in Hok.
    destruct (Z.eqb_spec (Ctx.k config) 0) as [E | E].
    - inversion Hok; subst config'. clear Hok. cbn [Ctx.k Ctx.set_k]. unfold to_SInt.
      rewrite (wrap64_small size) by (in_SInt lia).
      destruct (FindSquareMultipleOf_spec size Hsize) as (root & H0 & H1 & H2).
      assert (Hle : Factory.FindSquareMultipleOf size <= size * size).
      { apply FindSquareMultipleOf_minimal; [ exact Hsize | lia | apply Z.divide_factor_l ]. }
      split; [ nia | ].
      apply IsSquare_perfect; [ in_SInt nia | ].
      exists root. split; [ lia | symmetry; exact H1 ].
    - destruct (Factory.IsSquare (Ctx.k config)) eqn:Hsq; simpl in Hok; [ | discriminate Hok ].
      inversion Hok; subst config'. split; [ exact E | exact Hsq ]. }
  destruct Hgoal as [H0 H1]. split; [ exact H0 | split; [ exact H1 | ] ].
  unfold Factory.EnsureSquareChunkSize.
  destruct (Z.eqb_spec (Ctx.k config') 0) as [E | E]; [ contradiction | ].
  rewrite H1. reflexivity.
Qed.
End SquareStable.

Lemma EnsureSquareChunkSize_stable_witness :
  Factory.EnsureSquareChunkSize (Ctx.set_k 36 (Facade.library_config 0 false)) 5
  = Ok (Ctx.set_k 36 (Facade.library_config 0 false)).
Proof.
  refine (proj2 (proj2 (EnsureSquareChunkSize_stable (Facade.library_config 0 false)
                          (Ctx.set_k 36 (Facade.library_config 0 false)) 6 5 _ _ _))).
  - vm_compute. split; [ discriminate | reflexivity ].
  - vm_compute. split; [ discriminate | reflexivity ].
  - reflexivity.
Defined.

Section Normalize.
Context {HPFloat : Type}.

(** X5. [NormalizeParameters] of the base class never throws: it leaves a
    chunk count that is set alone, replaces an unset one by the process
    count, returns a chunk count that is not zero, and normalising its
    result again changes nothing. *)
Theorem NormalizeParameters_idempotent
    (config : Ctx.PGeneratorConfig HPFloat) (rank rank' size : Z) (output output' : bool) :
  1 <= size < PEID_bound ->
  exists config',
    Factory.NormalizeParameters config rank size output = Ok config'
    /\ Ctx.k config' <> 0
    /\ (Ctx.k config <> 0 -> config' = config)
    /\ (Ctx.k config = 0 -> config' = Ctx.set_k size config)
    /\ Factory.NormalizeParameters config' rank' size output' = Ok config'.
Proof.
  intros Hsize. rewrite PEID_bound_eq in Hsize.
  unfold Factory.NormalizeParameters, to_SInt.
  rewrite (wrap64_small size) by (in_SInt lia).
  destruct (Z.eqb_spec (Ctx.k config) 0) as [E | E].
  - exists (Ctx.set_k size config). cbn [Ctx.k Ctx.set_k].
    destruct (Z.eqb_spec size 0) as [E' | E']; [ lia | ].
    repeat split; try reflexivity; try lia; try (intros; contradiction).
  - exists config. destruct (Z.eqb_spec (Ctx.k config) 0) as [E' | E']; [ contradiction | ].
    repeat split; try reflexivity; try assumption; try (intros; contradiction).
Qed.
End Normalize.

Lemma NormalizeParameters_idempotent_witness :
  Factory.NormalizeParameters (Facade.library_config 0 false) 0 4 false
  = Ok (Ctx.set_k 4 (Facade.library_config 0 false)).
Proof.
  destruct (NormalizeParameters_idempotent (Facade.library_config 0 false) 0 0 4 false false)
    as (config' & H0 & _ & _ & H1 & _).
  - vm_compute. split; [ discriminate | reflexivity ].
  - rewrite H0. f_equal. apply H1. reflexivity.
Defined.

(** ** The cubic chunk counts *)

Lemma cube_mono a b : 0 <= a -> a < b -> a * a * a < b * b * b.
Proof. intros Ha Hab. assert (a * a < b * b) by nia. nia. Qed.

Lemma cube_mono_le a b : 0 <= a -> a <= b -> a * a * a <= b * b * b.
Proof. intros Ha Hab. assert (a * a <= b * b) by nia. nia. Qed.

Lemma cube_inj_le a b : 0 <= a -> 0 <= b -> a * a * a <= b * b * b -> a <= b.
Proof.
  intros Ha Hb H. destruct (Z_lt_le_dec b a) as [Hlt | Hle]; [ | exact Hle ].
  pose proof (cube_mono b a Hb Hlt). lia.
Qed.

Lemma cbrt_bits_spec bits root value :
  0 <= root -> root * root * root <= value ->
  value < (root + 2 ^ Z.of_nat bits) * (root + 2 ^ Z.of_nat bits) * (root + 2 ^ Z.of_nat bits) ->
  let c := FactoryCubic.cbrt_bits bits root value in
  0 <= c /\ c * c * c <= value < (c + 1) * (c + 1) * (c + 1).
Proof.
  revert root. induction bits as [| bits IH]; intros root H0 Hle Hlt.
  - simpl in *. split; [ exact H0 | split; [ exact Hle | exact Hlt ] ].
  - cbn [FactoryCubic.cbrt_bits]. cbv zeta.
    assert (Hp : 0 < 2 ^ Z.of_nat bits) by (apply Z.pow_pos_nonneg; lia).
    assert (H2 : 2 ^ Z.of_nat (S bits) = 2 * 2 ^ Z.of_nat bits).
    { rewrite Nat2Z.inj_succ, Z.pow_succ_r by lia. reflexivity. }
    rewrite H2 in Hlt.
    destruct (Z.leb_spec ((root + 2 ^ Z.of_nat bits) * (root + 2 ^ Z.of_nat bits)
                          * (root + 2 ^ Z.of_nat bits)) value) as [Hnext | Hnext].
    + apply IH; [ lia | exact Hnext | ].
      replace (root + 2 ^ Z.of_nat bits + 2 ^ Z.of_nat bits)
        with (root + 2 * 2 ^ Z.of_nat bits) by lia. exact Hlt.
    + apply IH; [ exact H0 | exact Hle | exact Hnext ].
Qed.

Lemma floor_cbrt_spec value :
  0 <= value < 2 ^ 66 ->
  let c := FactoryCubic.floor_cbrt value in
  0 <= c /\ c * c * c <= value < (c + 1) * (c + 1) * (c + 1).
Proof.
  intros Hv. unfold FactoryCubic.floor_cbrt. apply cbrt_bits_spec; [ lia | lia | ].
  change ((0 + 2 ^ Z.of_nat 22) * (0 + 2 ^ Z.of_nat 22) * (0 + 2 ^ Z.of_nat 22)) with (2 ^ 66).
  lia.
Qed.

Lemma floor_cbrt_cube r : 0 <= r -> r * r * r < 2 ^ 66 -> FactoryCubic.floor_cbrt (r * r * r) = r.
Proof.
  intros Hr Hlt.
  pose proof (floor_cbrt_spec (r * r * r) ltac:(nia)) as (H0 & H1 & H2).
  set (c := FactoryCubic.floor_cbrt (r * r * r)) in *.
  pose proof (cube_inj_le c r H0 Hr H1).
  destruct (Z_lt_le_dec c r) as [Hlt' | Hge]; [ | lia ].
  pose proof (cube_mono_le (c + 1) r ltac:(lia) ltac:(lia)). lia.
Qed.

Lemma round_cbrt_cube r : 0 <= r -> r * r * r < 2 ^ 66 -> FactoryCubic.round_cbrt (r * r * r) = r.
Proof.
  intros Hr Hlt. unfold FactoryCubic.round_cbrt. rewrite floor_cbrt_cube by assumption.
  cbv zeta. destruct (Z.ltb_spec (8 * (r * r * r)) ((2 * r + 1) * (2 * r + 1) * (2 * r + 1)));
    [ reflexivity | nia ].
Qed.

Lemma round_cbrt_bound value :
  is_SInt value ->
  let root := FactoryCubic.round_cbrt value in
  0 <= root <= 2642246 /\ (root = 2642246 -> 18446724184312856125 <= value).
Proof.
  intros [H0 H1]. rewrite SInt_modulus_eq in H1.
  pose proof (floor_cbrt_spec value ltac:(lia)) as (Hc0 & Hc1 & Hc2).
  unfold FactoryCubic.round_cbrt. cbv zeta.
  set (c := FactoryCubic.floor_cbrt value) in *.
  assert (Hc : c <= 2642245).
  { destruct (Z_lt_le_dec 2642245 c) as [Hlt | Hle]; [ | exact Hle ].
    pose proof (cube_mono_le 2642246 c ltac:(lia) ltac:(lia)). lia. }
  destruct (Z.ltb_spec (8 * value) ((2 * c + 1) * (2 * c + 1) * (2 * c + 1))).
  - split; [ lia | lia ].
  - split; [ lia | ]. intros Hr. assert (c = 2642245) as Hc' by lia. rewrite Hc' in Hc1. lia.
Qed.

Lemma IsCubic_perfect value :
  is_SInt value ->
  FactoryCubic.IsCubic value = true <-> exists r, 0 <= r /\ r * r * r = value.
Proof.
  intros Hv. pose proof (round_cbrt_bound value Hv) as (Hr & Hbig).
  pose proof Hv as [H0 H1]. rewrite SInt_modulus_eq in H1.
  unfold FactoryCubic.IsCubic. cbv zeta. rewrite Z.eqb_eq.
  set (root := FactoryCubic.round_cbrt value) in *.
  rewrite (wrap64_small (root * root)) by (in_SInt nia).
  split.
  - intros H. exists root. split; [ lia | ].
    destruct (decide (root = 2642246)) as [E | E].
    + specialize (Hbig E). rewrite E in H. vm_compute in H. lia.
    + assert (Hle : root <= 2642245) by lia.
      pose proof (cube_mono_le root 2642245 ltac:(lia) Hle) as Hcube.
      rewrite wrap64_small in H by (in_SInt nia). exact H.
  - intros (r & Hr0 & Hrr). subst value.
    assert (Hroot : root = r).
    { unfold root. apply round_cbrt_cube; [ exact Hr0 | lia ]. }
    rewrite Hroot. apply wrap64_small. in_SInt lia.
Qed.

Lemma pow2_cube j : 0 <= j -> 2 ^ (3 * j) = 2 ^ j * 2 ^ j * 2 ^ j.
Proof. intros Hj. rewrite <- !Z.pow_add_r by lia. f_equal. lia. Qed.

Lemma FindCubeMultipleOf_loop_spec fuel cur value :
  1 <= cur -> 1 <= value <= 2 ^ 21 ->
  exists r, 0 < r
    /\ FactoryCubic.FindCubeMultipleOf_loop fuel cur value = r * r * r
    /\ (value | r * r * r).
Proof.
  change (2 ^ 21) with 2097152.
  revert cur. induction fuel as [| fuel IH]; intros cur Hcur Hvalue.
  - exists value. simpl.
    pose proof (cube_mono_le value 2097152 ltac:(lia) ltac:(lia)).
    rewrite (wrap64_small (value * value)) by (in_SInt nia).
    rewrite wrap64_small by (in_SInt nia).
    split; [ lia | split; [ reflexivity | apply Z.divide_factor_r ] ].
  - simpl. destruct (Z.ltb_spec cur value) as [Hlt | Hge].
    + pose proof (cube_mono_le cur 2097152 ltac:(lia) ltac:(lia)).
      rewrite (wrap64_small (cur * cur)) by (in_SInt nia).
      rewrite (wrap64_small (cur * cur * cur)) by (in_SInt nia).
      destruct (Z.eqb_spec ((cur * cur * cur) mod value) 0) as [Hmod | Hmod].
      * exists cur. split; [ lia | split; [ reflexivity | ] ].
        apply Z.mod_divide; [ lia | exact Hmod ].
      * rewrite (wrap64_small (cur + 1)) by (in_SInt lia).
        apply IH; lia.
    + exists value.
      pose proof (cube_mono_le value 2097152 ltac:(lia) ltac:(lia)).
      rewrite (wrap64_small (value * value)) by (in_SInt nia).
      rewrite wrap64_small by (in_SInt nia).
      split; [ lia | split; [ reflexivity | apply Z.divide_factor_r ] ].
Qed.

Lemma FindCubeMultipleOf_spec value :
  1 <= value <= 2 ^ 21 ->
  exists r, 0 < r /\ FactoryCubic.FindCubeMultipleOf value = r * r * r /\ (value | r * r * r).
Proof.
  intros Hvalue. pose proof Hvalue as Hvalue'. change (2 ^ 21) with 2097152 in Hvalue'.
  assert (HS : is_SInt value) by (in_SInt lia).
  unfold FactoryCubic.FindCubeMultipleOf.
  destruct (FactoryCubic.IsCubic value) eqn:Hcub.
  - apply IsCubic_perfect in Hcub as (r & Hr & Hrr); [ | exact HS ].
    exists r. split; [ nia | split; [ symmetry; exact Hrr | rewrite Hrr; reflexivity ] ].
  - destruct (Factory.IsPowerOfTwo value) eqn:Hpow.
    + rewrite !wrap64_small by (in_SInt lia).
      destruct (FactoryCubic.IsCubic (value * 2)) eqn:Hcub2.
      * apply IsCubic_perfect in Hcub2 as (r & Hr & Hrr); [ | in_SInt lia ].
        exists r. split; [ nia | split; [ symmetry; exact Hrr | ] ].
        rewrite Hrr. apply Z.divide_factor_l.
      * apply IsPowerOfTwo_pow in Hpow as (e & He & Hve); [ | rewrite SInt_modulus_eq; lia ].
        pose proof (Z.div_mod e 3 ltac:(lia)) as Hdm.
        pose proof (Z.mod_pos_bound e 3 ltac:(lia)) as Hm.
        assert (Hj : 0 <= e / 3) by (apply Z.div_pos; lia).
        assert (He1 : e mod 3 = 1).
        { destruct (decide (e mod 3 = 0)) as [E0 | E0].
          - exfalso. assert (FactoryCubic.IsCubic value = true); [ | congruence ].
            apply IsCubic_perfect; [ exact HS | ]. exists (2 ^ (e / 3)).
            split; [ apply Z.pow_nonneg; lia | ].
            rewrite <- pow2_cube by exact Hj. rewrite Hve. f_equal. lia.
          - destruct (decide (e mod 3 = 2)) as [E2 | E2]; [ | lia ].
            exfalso. assert (FactoryCubic.IsCubic (value * 2) = true); [ | congruence ].
            apply IsCubic_perfect; [ in_SInt lia | ]. exists (2 ^ (e / 3 + 1)).
            split; [ apply Z.pow_nonneg; lia | ].
            rewrite <- pow2_cube by lia. rewrite Hve.
            replace (3 * (e / 3 + 1)) with (e + 1) by lia.
            rewrite Z.pow_add_r by lia. reflexivity. }
        exists (2 ^ (e / 3 + 1)).
        assert (Hpos : 0 < 2 ^ (e / 3 + 1)) by (apply Z.pow_pos_nonneg; lia).
        split; [ exact Hpos | ].
        assert (Heq : value * 4 = 2 ^ (e / 3 + 1) * 2 ^ (e / 3 + 1) * 2 ^ (e / 3 + 1)).
        { rewrite <- pow2_cube by lia. rewrite Hve.
          replace (3 * (e / 3 + 1)) with (e + 2) by lia.
          rewrite Z.pow_add_r by lia. reflexivity. }
        split; [ exact Heq | ]. rewrite <- Heq. apply Z.divide_factor_l.
    + apply FindCubeMultipleOf_loop_spec; [ | exact Hvalue ].
      pose proof (floor_cbrt_spec value ltac:(lia)) as (H0 & H1 & H2).
      destruct (decide (FactoryCubic.floor_cbrt value = 0)) as [E | E]; [ | lia ].
      rewrite E in H2. simpl in H2. lia.
Qed.

Section EnsureCubic.
Context {HPFloat : Type}.

(** X6. For a chunk count [k] other than zero, [EnsureCubicChunkSize]
    accepts the configuration unchanged exactly when [k] is a perfect
    cube and throws [ConfigurationError] with the text "number of chunks
    must be cubic" otherwise. For [k = 0] and up to [2^21] processes it
    throws nothing and sets [k] to a positive perfect cube that is a
    multiple of the process count. *)
Theorem EnsureCubicChunkSize_spec (config : Ctx.PGeneratorConfig HPFloat) (size : Z) :
  is_SInt (Ctx.k config) -> 1 <= size <= 2 ^ 21 ->
  let k := Ctx.k config in
  (k <> 0 ->
     ((exists root, 0 <= root /\ root * root * root = k) ->
        FactoryCubic.EnsureCubicChunkSize config size = Ok config)
     /\ (~ (exists root, 0 <= root /\ root * root * root = k) ->
           FactoryCubic.EnsureCubicChunkSize config size
           = Throw (ConfigurationError "number of chunks must be cubic")))
  /\ (k = 0 ->
        exists root,
          0 < root /\ (size | root * root * root)
          /\ FactoryCubic.EnsureCubicChunkSize config size
             = Ok (Ctx.set_k (root * root * root) config)).
Proof.
  intros Hk Hsize k. split.
  - intros Hk0. unfold FactoryCubic.EnsureCubicChunkSize. fold k.
    destruct (Z.eqb_spec k 0) as [E | _]; [ contradiction | ].
    pose proof (IsCubic_perfect k Hk) as Hiff.
    destruct (FactoryCubic.IsCubic k); simpl; split; intros H; try reflexivity.
    + exfalso. apply H, Hiff. reflexivity.
    + apply Hiff in H. discriminate H.
  - intros Hk0. unfold FactoryCubic.EnsureCubicChunkSize. fold k. rewrite Hk0. simpl.
    assert (Hs : to_SInt size = size).
    { apply wrap64_small. change (2 ^ 21) with 2097152 in Hsize. in_SInt lia. }
    rewrite Hs.
    destruct (FindCubeMultipleOf_spec size Hsize) as (r & Hr & Heq & Hdiv).
    exists r. rewrite Heq. auto.
Qed.

End EnsureCubic.

Lemma EnsureCubicChunkSize_spec_witness :
  FactoryCubic.EnsureCubicChunkSize (Facade.library_config 9 false) 4
  = Throw (ConfigurationError "number of chunks must be cubic")
  /\ FactoryCubic.EnsureCubicChunkSize (Facade.library_config 0 false) 12
     = Ok (Ctx.set_k 216 (Facade.library_config 0 false)).
Proof.
  split.
  - refine (proj2 (proj1 (EnsureCubicChunkSize_spec (Facade.library_config 9 false) 4 _ _) _) _).
    + vm_compute. split; [ discriminate | reflexivity ].
    + vm_compute. split; discriminate.
    + vm_compute. discriminate.
    + intros (root & H0 & H1). cbn in H1.
      assert (root <= 2) by nia. assert (root = 0 \/ root = 1 \/ root = 2) as [-> | [-> | ->]] by lia; lia.
  - reflexivity.
Defined.

(** ** More on the generator base class *)

#[local] Instance edge_lt_trans : Transitive Gen.edge_lt.
Proof. intros [a1 a2] [b1 b2] [c1 c2]. unfold Gen.edge_lt. simpl. lia. Qed.

Lemma Sorted_edge_lt_NoDup l : Sorted Gen.edge_lt l -> NoDup l.
Proof.
  intros Hs. apply Sorted_StronglySorted in Hs; [ | apply _ ].
  induction Hs as [| x l Hs IH Hall]; constructor; [ | exact IH ].
  intros Hin. rewrite Forall_forall in Hall. exact (edge_lt_ne x x (Hall x Hin) eq_refl).
Qed.

Section FilterCount.
Context {HPFloat D : Type}.

(** X7. After [FilterDuplicateEdges] the edge list has no duplicate and
    is at most as long as before; it has the same length exactly when the
    edge list had no duplicate. The edge weights are not touched, so that
    removing a duplicate leaves more weights than edges. The number of
    edges the generator reports does not grow. *)
Theorem FilterDuplicateEdges_count (g : Gen.Generator HPFloat D) :
  let g' := Gen.FilterDuplicateEdges g in
  NoDup (Gen.edges_ g')
  /\ (length (Gen.edges_ g') <= length (Gen.edges_ g))%nat
  /\ (length (Gen.edges_ g') = length (Gen.edges_ g) <-> NoDup (Gen.edges_ g))
  /\ Gen.edge_weights_ g' = Gen.edge_weights_ g
  /\ Gen.GetNumberOfEdges g' <= Gen.GetNumberOfEdges g.
Proof.
  intros g'.
  assert (Hs : Sorted Gen.edge_lt (Gen.edges_ g')).
  { apply std_unique_Sorted, std_sort_Sorted. }
  assert (Hnd : NoDup (Gen.edges_ g')) by (apply Sorted_edge_lt_NoDup; exact Hs).
  assert (Helem : forall e, e ∈ Gen.edges_ g' <-> e ∈ Gen.edges_ g).
  { intros e. unfold g'. simpl. rewrite std_unique_elem.
    split; intros He.
    - rewrite <- (std_sort_Permutation (Gen.edges_ g)). exact He.
    - rewrite (std_sort_Permutation (Gen.edges_ g)). exact He. }
  assert (Hsub : Gen.edges_ g' ⊆+ Gen.edges_ g).
  { apply NoDup_submseteq; [ exact Hnd | ]. intros e. apply Helem. }
  assert (Hlen : (length (Gen.edges_ g') <= length (Gen.edges_ g))%nat).
  { apply submseteq_length. exact Hsub. }
  repeat apply conj.
  - exact Hnd.
  - exact Hlen.
  - intros Heq. rewrite <- (submseteq_length_Permutation _ _ Hsub); [ exact Hnd | lia ].
  - intros Hnd'. apply Nat.le_antisymm; [ exact Hlen | ].
    apply submseteq_length. apply NoDup_submseteq; [ exact Hnd' | ].
    intros e. apply Helem.
  - reflexivity.
  - unfold Gen.GetNumberOfEdges. change (Gen.adjncy_ g') with (Gen.adjncy_ g). lia.
Qed.

End FilterCount.

Section FinalizeOnce.
Context {HPFloat D MPI_Comm : Type}.
Variable generate : Gen.Generator HPFloat D -> Gen.Generator HPFloat D.
Variable finalize : MPI_Comm -> Gen.Generator HPFloat D -> Gen.Generator HPFloat D.

(** X8. An edge-list-only generator asked for CSR converts once:
    [Finalize] leaves [xadj] non-empty, keeps a CSR that is already there
    as it is, and a second [Finalize] changes nothing (for a family whose
    own hook keeps the representation tag). *)
Theorem EdgeListOnlyGenerator_Finalize_once (comm : MPI_Comm) (g : Gen.Generator HPFloat D) :
  (forall c x, Gen.representation_ (finalize c x) = Gen.representation_ x) ->
  Gen.representation_ g = CSR ->
  let V := Gen.EdgeListOnlyGenerator generate finalize in
  let g' := Gen.Finalize (V := V) comm g in
  Gen.xadj_ g' <> []
  /\ Gen.edges_ g' = (if Gen.xadj_ g is [] then Gen.edges_ (finalize comm g) else Gen.edges_ g)
  /\ (Gen.xadj_ g <> [] -> g' = g)
  /\ Gen.Finalize (V := V) comm g' = g'.
Proof.
  intros Htag Hg V g'.
  assert (Hg' : g' = Gen.EdgeListOnlyGenerator_FinalizeCSR finalize comm g).
  { unfold g', Gen.Finalize. rewrite Hg. reflexivity. }
  assert (Hx : Gen.xadj_ g' <> []).
  { rewrite Hg'. unfold Gen.EdgeListOnlyGenerator_FinalizeCSR.
    destruct (Gen.xadj_ g) eqn:E; [ | rewrite E; discriminate ].
    simpl. apply offsets_not_nil. }
  assert (Htag' : Gen.representation_ g' = CSR).
  { rewrite Hg'. unfold Gen.EdgeListOnlyGenerator_FinalizeCSR.
    destruct (Gen.xadj_ g); [ | exact Hg ]. simpl. rewrite Htag. exact Hg. }
  repeat apply conj.
  - exact Hx.
  - rewrite Hg'. unfold Gen.EdgeListOnlyGenerator_FinalizeCSR.
    destruct (Gen.xadj_ g); reflexivity.
  - intros Hne. rewrite Hg'. unfold Gen.EdgeListOnlyGenerator_FinalizeCSR.
    destruct (Gen.xadj_ g); [ contradiction | reflexivity ].
  - unfold Gen.Finalize at 1. rewrite Htag'. simpl.
    unfold Gen.EdgeListOnlyGenerator_FinalizeCSR.
    destruct (Gen.xadj_ g'); [ contradiction | reflexivity ].
Qed.

End FinalizeOnce.

Lemma EdgeListOnlyGenerator_Finalize_once_witness :
  let g := Gen.Generate (V := Gen.PairEdgeList) CSR Gen.fresh in
  Gen.Finalize (V := Gen.PairEdgeList) tt (Gen.Finalize (V := Gen.PairEdgeList) tt g)
  = Gen.Finalize (V := Gen.PairEdgeList) tt g.
Proof.
  intros g.
  refine (proj2 (proj2 (proj2 (EdgeListOnlyGenerator_Finalize_once (MPI_Comm := unit)
            Gen.Pair_GenerateEdgeList Gen.Generator_FinalizeEdgeList tt g _ _)))).
  - reflexivity.
  - reflexivity.
Defined.

(** ** More on the facade *)

(** Decides a membership in a list that is written out. *)
Ltac elem_of_explicit H :=
  repeat (apply elem_of_app in H as [H | H]);
  repeat (apply elem_of_cons in H as [H | H]; [ try discriminate H | ]);
  try (apply elem_of_nil in H; contradiction).

Section FacadeMore.
Context {HPFloat : Type} (ROOT : Z).
Context {factory : Factory.GeneratorFactory HPFloat} {collaborators : Facade.Collaborators HPFloat}.

Lemma Generate_silent (config_template : Ctx.PGeneratorConfig HPFloat) (comm : Facade.Comm) :
  (Facade.comm_rank comm =? ROOT) && negb (Ctx.quiet config_template) = false ->
  forall m, Facade.Print Facade.cout m ∉ (Facade.Generate ROOT config_template comm).1.
Proof.
  intros Hinfo m Hin. unfold Facade.Generate in Hin. cbv zeta in Hin.
  rewrite Hinfo in Hin.
  destruct (Factory.factory_NormalizeParameters _ _ _) as [config | e].
  - rewrite !andb_false_r in Hin. cbn [andb Facade.when app] in Hin.
    destruct (Ctx.validate_simple_graph config);
      [ destruct (Facade.MPI_Allreduce_LOR _ _) | ];
      cbn [negb fst] in Hin;
      destruct (Ctx.quiet config); destruct (Ctx.statistics_level config);
      destruct (Facade.comm_rank comm =? ROOT);
      cbn in Hin; elem_of_explicit Hin.
  - destruct e; destruct (Facade.comm_rank comm =? ROOT); cbn in Hin; elem_of_explicit Hin.
Qed.

Lemma Generate_cerr_root (config_template : Ctx.PGeneratorConfig HPFloat) (comm : Facade.Comm) :
  (Facade.comm_rank comm =? ROOT) = false ->
  forall m, Facade.Print Facade.cerr m ∉ (Facade.Generate ROOT config_template comm).1.
Proof.
  intros Hroot m Hin. unfold Facade.Generate in Hin. cbv zeta in Hin.
  rewrite Hroot in Hin. cbn [andb Facade.when app] in Hin.
  destruct (Factory.factory_NormalizeParameters _ _ _) as [config | e].
  - rewrite !andb_false_r in Hin. cbn [andb Facade.when app] in Hin.
    destruct (Ctx.validate_simple_graph config);
      [ destruct (Facade.MPI_Allreduce_LOR _ _) | ];
      cbn [negb fst] in Hin;
      destruct (Ctx.quiet config); destruct (Ctx.statistics_level config);
      cbn in Hin; elem_of_explicit Hin.
  - destruct e; cbn in Hin; elem_of_explicit Hin.
Qed.

(** X9. Whatever [Generate] of the facade writes, it writes on the process
    of rank [ROOT]; and it writes to [std::cout] only when
    [config_template.quiet] is off. *)
Theorem Generate_only_root_prints (config_template : Ctx.PGeneratorConfig HPFloat)
    (comm : Facade.Comm) (to : Facade.stream) (m : Facade.message) :
  Facade.Print to m ∈ (Facade.Generate ROOT config_template comm).1 ->
  Facade.comm_rank comm = ROOT
  /\ (to = Facade.cout -> Ctx.quiet config_template = false).
Proof.
  intros Hin.
  assert (Hroot : (Facade.comm_rank comm =? ROOT) = true).
  { destruct (Facade.comm_rank comm =? ROOT) eqn:E; [ reflexivity | exfalso ].
    destruct to.
    - apply (Generate_silent config_template comm) in Hin; [ exact Hin | ].
      rewrite E. reflexivity.
    - apply (Generate_cerr_root config_template comm) in Hin; [ exact Hin | exact E ]. }
  split; [ apply Z.eqb_eq; exact Hroot | ].
  intros ->. destruct (Ctx.quiet config_template) eqn:Q; [ exfalso | reflexivity ].
  apply (Generate_silent config_template comm) in Hin; [ exact Hin | ].
  rewrite Q. apply andb_false_r.
Qed.

(** X10. When the parameters normalise and the validation is switched
    off, [Generate] returns the graph taken from the generator, writes
    nothing to [std::cerr], and constructs one generator only, from the
    normalised configuration and the rank and size of the communicator. *)
Theorem Generate_without_validation (config_template config : Ctx.PGeneratorConfig HPFloat)
    (comm : Facade.Comm) :
  Factory.factory_NormalizeParameters config_template (Facade.comm_size comm)
    ((Facade.comm_rank comm =? ROOT) && negb (Ctx.quiet config_template))
  = Ok config ->
  Ctx.validate_simple_graph config = false ->
  let run := Facade.Generate ROOT config_template comm in
  run.2 = Facade.Returned (Facade.generated_graph config comm)
  /\ Facade.cerr_lines run.1 = []
  /\ (forall c rank size,
        Facade.CreateGenerator c rank size ∈ run.1
        <-> c = config /\ rank = Facade.comm_rank comm /\ size = Facade.comm_size comm).
Proof.
  intros Hnorm Hvalidate run. unfold run, Facade.Generate. cbv zeta.
  rewrite Hnorm, Hvalidate. cbn [fst snd].
  split; [ reflexivity | ]. split.
  - rewrite !cerr_lines_app. unfold Facade.when.
    repeat match goal with |- context [if ?b then _ else _] => destruct b end; reflexivity.
  - intros c rank size. split.
    + intros Hin. unfold Facade.when in Hin.
      repeat match type of Hin with context [if ?b then _ else _] => destruct b end;
        cbn in Hin; elem_of_explicit Hin; inversion Hin; auto.
    + intros (-> & -> & ->). rewrite !elem_of_app.
      assert (Hin : Facade.CreateGenerator config (Facade.comm_rank comm) (Facade.comm_size comm)
                    ∈ [Facade.CreateGenerator config (Facade.comm_rank comm)
                         (Facade.comm_size comm)]) by (apply list_elem_of_singleton; reflexivity).
      tauto.
Qed.

(** X11. An exception of [NormalizeParameters] other than
    [ConfigurationError] is not caught: it leaves [Generate], the process
    does not exit, nothing goes to [std::cerr], and no generator is
    constructed. *)
Theorem Generate_other_exception (config_template : Ctx.PGeneratorConfig HPFloat)
    (comm : Facade.Comm) (e : exn) :
  Factory.factory_NormalizeParameters config_template (Facade.comm_size comm)
    ((Facade.comm_rank comm =? ROOT) && negb (Ctx.quiet config_template))
  = Throw e ->
  (forall w, e <> ConfigurationError w) ->
  let run := Facade.Generate ROOT config_template comm in
  run.2 = Facade.Propagated e
  /\ Facade.cerr_lines run.1 = []
  /\ ~ Facade.constructs_generator run.1.
Proof.
  intros Hthrow Hne run. unfold run, Facade.Generate. cbv zeta. rewrite Hthrow.
  set (t := Facade.when _ _).
  assert (Ht : Facade.cerr_lines t = []
               /\ forall c r sz, Facade.CreateGenerator c r sz ∉ t).
  { unfold t, Facade.when.
    destruct ((Facade.comm_rank comm =? ROOT) && negb (Ctx.quiet config_template)
              && Ctx.print_header config_template).
    - split; [ reflexivity | ]. intros c r sz Hin. elem_of_explicit Hin.
    - split; [ reflexivity | ]. intros c r sz Hin. elem_of_explicit Hin. }
  destruct Ht as [Ht1 Ht2].
  destruct e as [w | w | w | w | w]; [ exfalso; exact (Hne w eq_refl) | | | | ];
    cbn [fst snd]; (split; [ reflexivity | ]);
    (split; [ exact Ht1 | intros (c & r & sz & Hin); exact (Ht2 c r sz Hin) ]).
Qed.

(** X12. When the validation fails on a process and on every other one,
    the process ends with [std::exit(1)] after a generator has been
    constructed; the text "Error: simple graph validation failed" goes to
    [std::cerr] on the process of rank [ROOT] and on no other. *)
Theorem Generate_validation_failure (config_template config : Ctx.PGeneratorConfig HPFloat)
    (comm : Facade.Comm) :
  Factory.factory_NormalizeParameters config_template (Facade.comm_size comm)
    ((Facade.comm_rank comm =? ROOT) && negb (Ctx.quiet config_template))
  = Ok config ->
  Ctx.validate_simple_graph config = true ->
  let graph := Facade.generated_graph config comm in
  Facade.ValidateSimpleGraph (edges graph) (vertex_range graph) comm = false ->
  Forall (fun b => b = false) (Facade.peers_success comm) ->
  let run := Facade.Generate ROOT config_template comm in
  run.2 = Facade.Exited 1
  /\ Facade.constructs_generator run.1
  /\ Facade.cerr_lines run.1
     = if Facade.comm_rank comm =? ROOT
       then [Facade.Text ("Error: simple graph validation failed" +:+ Facade.newline)]
       else [].
Proof.
  intros Hnorm Hvalidate graph Hlocal Hpeers run.
  assert (Hred : Facade.MPI_Allreduce_LOR
                   (Facade.ValidateSimpleGraph (edges graph) (vertex_range graph) comm)
                   (Facade.peers_success comm) = false).
  { apply MPI_Allreduce_LOR_false. split; assumption. }
  unfold run, Facade.Generate. cbv zeta. rewrite Hnorm, Hvalidate.
  fold (Facade.generated_graph config comm). fold graph. rewrite Hred.
  cbn [negb fst snd]. split; [ reflexivity | ]. split.
  - exists config, (Facade.comm_rank comm), (Facade.comm_size comm).
    rewrite !elem_of_app.
    assert (Hin : Facade.CreateGenerator config (Facade.comm_rank comm) (Facade.comm_size comm)
                  ∈ [Facade.CreateGenerator config (Facade.comm_rank comm)
                       (Facade.comm_size comm)]) by (apply list_elem_of_singleton; reflexivity).
    tauto.
  - rewrite !cerr_lines_app. unfold Facade.when.
    repeat match goal with |- context [if ?b then _ else _] => destruct b eqn:? end;
      try reflexivity; try discriminate.
Qed.

End FacadeMore.


Lemma Generate_only_root_prints_witness :
  let comm := Facade.mkComm 0 4 [] [] [] in
  Facade.comm_rank comm = 0.
Proof.
  intros comm.
  refine (proj1 (Generate_only_root_prints 0 (factory := Factory.SquareChunkFactory)
                   (collaborators := Facade.DefectiveCollaborators)
                   (Facade.library_config 3 false) comm Facade.cerr
                   (Facade.Text ("Error: number of chunks must be square" +:+ Facade.newline)) _)).
  apply list_elem_of_singleton. reflexivity.
Defined.

Lemma Generate_without_validation_witness :
  (Facade.Generate (factory := Factory.BaseFactory)
     (collaborators := Facade.DefectiveCollaborators) 0 (Facade.library_config 0 false)
     (Facade.mkComm 1 2 [1] [1] [])).2
  = Facade.Returned (mkGraph (1, 2) EDGE_LIST [(1, 1)] [] [] [] [] ([], [])).
Proof.
  refine (proj1 (Generate_without_validation 0 (factory := Factory.BaseFactory)
                   (collaborators := Facade.DefectiveCollaborators)
                   (Facade.library_config 0 false)
                   (Ctx.set_k 2 (Facade.library_config 0 false))
                   (Facade.mkComm 1 2 [1] [1] []) _ _)).
  - reflexivity.
  - reflexivity.
Defined.

Lemma Generate_other_exception_witness :
  (Facade.Generate (factory := FacadeExamples.UnavailableFactory)
     (collaborators := Facade.DefectiveCollaborators) 0 (Facade.library_config 0 false)
     (Facade.mkComm 0 2 [] [] [])).2
  = Facade.Propagated (runtime_error "generator not available").
Proof.
  refine (proj1 (Generate_other_exception 0 (factory := FacadeExamples.UnavailableFactory)
                   (collaborators := Facade.DefectiveCollaborators)
                   (Facade.library_config 0 false) (Facade.mkComm 0 2 [] [] [])
                   (runtime_error "generator not available") _ _)).
  - reflexivity.
  - intros w. discriminate.
Defined.

Lemma Generate_validation_failure_witness :
  (Facade.Generate (factory := Factory.BaseFactory)
     (collaborators := Facade.DefectiveCollaborators) 0 (Facade.library_config 0 true)
     (Facade.mkComm 1 2 [1] [1] [false])).2
  = Facade.Exited 1.
Proof.
  refine (proj1 (Generate_validation_failure 0 (factory := Factory.BaseFactory)
                   (collaborators := Facade.DefectiveCollaborators)
                   (Facade.library_config 0 true)
                   (Ctx.set_k 2 (Facade.library_config 0 true))
                   (Facade.mkComm 1 2 [1] [1] [false]) _ _ _ _)).
  - reflexivity.
  - reflexivity.
  - reflexivity.
  - repeat constructor.
Defined.

Lemma Generate_exits_iff_all_fail_witness :
  (Facade.Generate (factory := Factory.BaseFactory)
     (collaborators := Facade.DefectiveCollaborators) 0 (Facade.library_config 0 true)
     (Facade.mkComm 1 2 [1] [1] [true])).2
  = Facade.Returned (mkGraph (1, 2) EDGE_LIST [(1, 1)] [] [] [] [] ([], [])).
Proof.
  refine (proj2 (proj2 (Generate_exits_iff_all_fail 0 (factory := Factory.BaseFactory)
                   (collaborators := Facade.DefectiveCollaborators)
                   (Facade.library_config 0 true)
                   (Ctx.set_k 2 (Facade.library_config 0 true))
                   (Facade.mkComm 1 2 [1] [1] [true]) _ _)) _).
  - reflexivity.
  - reflexivity.
  - right. constructor. reflexivity.
Defined.

(** ** More on the option string *)

Lemma string_app_cons (c : ascii) (s t : string) : String c s +:+ t = String c (s +:+ t).
Proof. reflexivity. Qed.

Lemma string_app_nil_r (s : string) : s +:+ "" = s.
Proof.
  induction s as [| c s IH]; [ reflexivity | ]. rewrite string_app_cons. f_equal. exact IH.
Qed.

Lemma string_app_assoc (s1 s2 s3 : string) : (s1 +:+ s2) +:+ s3 = s1 +:+ (s2 +:+ s3).
Proof.
  induction s1 as [| c s1 IH]; [ reflexivity | ]. rewrite !string_app_cons. f_equal. exact IH.
Qed.

Lemma find_app_None (c : ascii) (s1 s2 : string) :
  OptionString.find c s1 = None -> OptionString.find c s2 = None ->
  OptionString.find c (s1 +:+ s2) = None.
Proof.
  intros H1 H2. induction s1 as [| a s1 IH]; [ exact H2 | ].
  rewrite string_app_cons. simpl in *.
  destruct (Ascii.eqb a c); [ discriminate H1 | ].
  destruct (OptionString.find c s1); [ discriminate H1 | ].
  rewrite IH by reflexivity. reflexivity.
Qed.

Lemma substring_0_length (s : string) : String.substring 0 (String.length s) s = s.
Proof. induction s as [| c s IH]; simpl; [ reflexivity | f_equal; exact IH ]. Qed.

(** X14. A pair with an ['='] splits at its first ['=']: the key has no
    ['='] and ends where the ['='] stands, and key, ['='] and value put
    together give the pair back. *)
Theorem pair_split_join (pair : string) (eq_pos : nat) :
  OptionString.find "="%char pair = Some eq_pos ->
  OptionString.key_of pair +:+ "=" +:+ OptionStringMore.value_of pair = pair
  /\ OptionString.find "="%char (OptionString.key_of pair) = None
  /\ String.length (OptionString.key_of pair) = eq_pos.
Proof.
  intros Hfind. unfold OptionString.key_of, OptionStringMore.value_of. rewrite Hfind.
  unfold OptionString.substr_from.
  revert eq_pos Hfind. induction pair as [| c pair IH]; intros eq_pos Hfind; simpl in Hfind.
  - discriminate Hfind.
  - destruct (Ascii.eqb_spec c "="%char) as [-> | Hne].
    + inversion Hfind; subst eq_pos. simpl. rewrite Nat.sub_0_r, substring_0_length.
      repeat split.
    + destruct (OptionString.find "="%char pair) as [pos |] eqn:E; [ | discriminate Hfind ].
      simpl in Hfind. inversion Hfind; subst eq_pos.
      destruct (IH pos eq_refl) as (H1 & H2 & H3).
      cbn [String.substring String.length].
      change (S (String.length pair) - S (S pos))%nat with (String.length pair - S pos)%nat.
      rewrite string_app_cons, H1. cbn [OptionString.find].
      destruct (Ascii.eqb_spec c "="%char) as [Heq | _]; [ contradiction | ].
      rewrite H2, H3. repeat split.
Qed.

Lemma pair_split_join_witness :
  OptionString.key_of "a=3=4" +:+ "=" +:+ OptionStringMore.value_of "a=3=4" = "a=3=4".
Proof. exact (proj1 (pair_split_join "a=3=4" 1 eq_refl)). Defined.

Lemma join_cons (pair p : string) (ps : list string) :
  OptionStringMore.join (pair :: p :: ps) = pair +:+ ";" +:+ OptionStringMore.join (p :: ps).
Proof. reflexivity. Qed.

Lemma getline_all_join (toker pair : string) (extracted : bool) :
  (extracted = false -> pair = "") ->
  OptionString.find ";"%char pair = None ->
  let pairs := OptionString.getline_all toker pair extracted in
  Forall (fun p => OptionString.find ";"%char p = None) pairs
  /\ (OptionStringMore.join pairs = pair +:+ toker
      \/ OptionStringMore.join pairs +:+ ";" = pair +:+ toker).
Proof.
  revert pair extracted. induction toker as [| c toker IH]; intros pair extracted Hext Hpair.
  - simpl. destruct extracted.
    + split; [ repeat constructor; exact Hpair | left ].
      rewrite string_app_nil_r. reflexivity.
    + rewrite (Hext eq_refl). split; [ constructor | left; reflexivity ].
  - cbn [OptionString.getline_all]. destruct (Ascii.eqb_spec c ";"%char) as [-> | Hne].
    + destruct (IH "" false (fun _ => eq_refl) eq_refl) as [Hall Hjoin].
      cbv zeta in Hall, Hjoin. cbv zeta.
      split; [ constructor; [ exact Hpair | exact Hall ] | ].
      change ("" +:+ toker) with toker in Hjoin.
      destruct (OptionString.getline_all toker "" false) as [| p ps] eqn:E.
      * right. change (OptionStringMore.join [pair]) with pair.
        destruct Hjoin as [Hj | Hj].
        -- change (OptionStringMore.join []) with "" in Hj. rewrite <- Hj. reflexivity.
        -- exfalso. change (OptionStringMore.join [] +:+ ";") with ";" in Hj.
           subst toker. simpl in E. discriminate E.
      * rewrite join_cons. destruct Hjoin as [Hj | Hj].
        -- left. rewrite Hj. reflexivity.
        -- right. rewrite !string_app_assoc. rewrite Hj. reflexivity.
    + specialize (IH (pair +:+ String c "") true).
      destruct IH as [Hall Hjoin].
      * discriminate.
      * apply find_app_None; [ exact Hpair | ]. simpl.
        destruct (Ascii.eqb_spec c ";"%char) as [Heq | _]; [ contradiction | reflexivity ].
      * cbv zeta in Hall, Hjoin. cbv zeta. split; [ exact Hall | ].
        rewrite string_app_assoc in Hjoin. exact Hjoin.
Qed.

(** X15. No pair read from an option string contains a [';']; the pairs
    joined by [';'] give the option string back, up to one [';'] at its
    end; and there is no pair exactly when the option string is empty. *)
Theorem pairs_of_join (options : string) :
  let pairs := OptionStringMore.pairs_of options in
  Forall (fun pair => OptionString.find ";"%char pair = None) pairs
  /\ (OptionStringMore.join pairs = options
      \/ OptionStringMore.join pairs +:+ ";" = options)
  /\ (pairs = [] <-> options = "").
Proof.
  intros pairs.
  destruct (getline_all_join options "" false (fun _ => eq_refl) eq_refl) as [Hall Hjoin].
  split; [ exact Hall | ]. split; [ exact Hjoin | ].
  unfold pairs, OptionStringMore.pairs_of. split.
  - intros Hnil. destruct options as [| c options]; [ reflexivity | exfalso ].
    cbn [OptionString.getline_all] in Hnil.
    destruct (Ascii.eqb c ";"%char); [ discriminate Hnil | ].
    clear Hall Hjoin pairs. revert Hnil. generalize ("" +:+ String c ""). 
    induction options as [| a options IH]; intros p Hnil; simpl in Hnil; [ discriminate | ].
    destruct (Ascii.eqb a ";"%char); [ discriminate | ]. exact (IH _ Hnil).
  - intros ->. reflexivity.
Qed.

Lemma ParseOptionString_step_insert (result : gmap string string) (pair : string) :
  OptionString.ParseOptionString_step result pair
  = <[OptionString.key_of pair := OptionStringMore.value_of pair]> result.
Proof.
  unfold OptionString.ParseOptionString_step, OptionString.key_of, OptionStringMore.value_of.
  destruct (OptionString.find "="%char pair); reflexivity.
Qed.

Lemma foldl_step_lookup (pairs : list string) (result : gmap string string) (key : string) :
  foldl OptionString.ParseOptionString_step result pairs !! key
  = match last (filter (fun pair => OptionString.key_of pair = key) pairs) with
    | Some found => Some (OptionStringMore.value_of found)
    | None => result !! key
    end.
Proof.
  revert result. induction pairs as [| pair pairs IH]; intros result; [ reflexivity | ].
  cbn [foldl]. rewrite IH, filter_cons. clear IH.
  destruct (decide (OptionString.key_of pair = key)) as [Hkey | Hkey].
  - destruct (filter _ pairs) as [| q qs].
    + simpl. rewrite ParseOptionString_step_insert, Hkey. apply lookup_insert_eq.
    + change (last (pair :: q :: qs)) with (last (q :: qs)).
      destruct (last (q :: qs)) eqn:El; [ reflexivity | ].
      apply last_None in El. discriminate El.
  - destruct (last (filter _ pairs)); [ reflexivity | ].
    rewrite ParseOptionString_step_insert. apply lookup_insert_ne. exact Hkey.
Qed.

(** X16. [ParseOptionString] maps a key to the value of the last pair
    that sets it, and has no entry for a key that no pair sets. *)
Theorem ParseOptionString_lookup (options key : string) :
  OptionString.ParseOptionString options !! key
  = OptionStringMore.value_of
      <$> last (filter (fun pair => OptionString.key_of pair = key)
                  (OptionStringMore.pairs_of options)).
Proof.
  unfold OptionString.ParseOptionString. rewrite foldl_step_lookup.
  unfold OptionStringMore.pairs_of.
  destruct (last _); [ reflexivity | apply lookup_empty ].
Qed.

Lemma getline_all_app_delimiter (options rest pair : string) (extracted : bool) :
  exists front,
    OptionString.getline_all (options +:+ String ";"%char rest) pair extracted
    = front ++ OptionString.getline_all rest "" false.
Proof.
  revert pair extracted. induction options as [| c options IH]; intros pair extracted.
  - exists [pair]. change ("" +:+ String ";"%char rest) with (String ";"%char rest).
    reflexivity.
  - rewrite string_app_cons. cbn [OptionString.getline_all].
    destruct (Ascii.eqb c ";"%char).
    + destruct (IH "" false) as [front ->]. exists (pair :: front). reflexivity.
    + apply IH.
Qed.

Section OptionStringMoreFacts.
Context {HPFloat : Type} `{OptionString.FloatOps HPFloat}.
Variable GetGeneratorTypeMap : gmap string Ctx.GeneratorType.

Lemma subscript_other (options : gmap string string) (key other : string) :
  other <> key -> (OptionString.subscript options key).2 !! other = options !! other.
Proof.
  intros Hne. unfold OptionString.subscript.
  destruct (options !! key); [ reflexivity | ].
  simpl. apply lookup_insert_ne. congruence.
Qed.

Lemma run_app (l1 l2 : list OptionString.statement) (config : Ctx.PGeneratorConfig HPFloat) :
  OptionString.run (l1 ++ l2) config
  = match OptionString.run l1 config with
    | (config', Ok _) => OptionString.run l2 config'
    | (config', Throw e) => (config', Throw e)
    end.
Proof.
  revert config. induction l1 as [| st l1 IH]; intros config; [ reflexivity | ].
  simpl. destruct (st config) as [config' | e]; [ apply IH | reflexivity ].
Qed.

Lemma run_cons_Throw (st : OptionString.statement) (statements : list OptionString.statement)
    (config : Ctx.PGeneratorConfig HPFloat) (e : exn) :
  st config = Throw e -> OptionString.run (st :: statements) config = (config, Throw e).
Proof. intros Hst. simpl. rewrite Hst. reflexivity. Qed.

(** X17. The 2D and 3D variants of [GenerateFromOptionString] append
    ";coordinates": whatever the option string says about coordinates,
    the key reads as set, and when [Generate] is reached
    [config.coordinates] is true. *)
Theorem GenerateFromOptionString2D_coordinates (options : string)
    (config config' : Ctx.PGeneratorConfig HPFloat) :
  OptionString.ParseOptionString (options +:+ ";coordinates") !! "coordinates" = Some "1"
  /\ (OptionStringMore.GenerateFromOptionString2D GetGeneratorTypeMap options config
      = (config', Ok tt) ->
      Ctx.coordinates config' = true).
Proof.
  assert (Hlookup : OptionString.ParseOptionString (options +:+ ";coordinates")
                    !! "coordinates" = Some "1").
  { unfold OptionString.ParseOptionString.
    destruct (getline_all_app_delimiter options "coordinates" "" false) as [front Hfront].
    change (options +:+ ";coordinates") with (options +:+ String ";"%char "coordinates").
    rewrite Hfront. rewrite foldl_app.
    change (OptionString.getline_all "coordinates" "" false) with ["coordinates"].
    cbn [foldl]. apply ParseOptionString_step_flag. reflexivity. }
  split; [ exact Hlookup | ].
  unfold OptionStringMore.GenerateFromOptionString2D,
    OptionString.GenericGenerateFromOptionString.
  set (options' := OptionString.ParseOptionString (options +:+ ";coordinates")) in *.
  destruct (GetGeneratorTypeMap !! _) as [type |]; [ | discriminate ].
  assert (Hb : OptionString.get_bool_or_default (OptionString.subscript options' "type").2
                 "coordinates" false = true).
  { unfold OptionString.get_bool_or_default.
    rewrite subscript_other by discriminate. rewrite Hlookup. reflexivity. }
  rewrite Hb.
  match goal with
  | |- OptionString.run ?l config = _ -> _ =>
      change l with (removelast l ++ [OptionString.assign Ctx.set_coordinates (Ok true)])
  end.
  rewrite run_app.
  destruct (OptionString.run _ config) as [c1 [[] | e]]; [ | discriminate ].
  simpl. intros Hrun. inversion Hrun. reflexivity.
Qed.

(** X18. An option string in which no pair sets "type" makes
    [GenericGenerateFromOptionString] throw [std::runtime_error] with the
    text "invalid generator type" (the empty string being no type name),
    and the configuration stays as it was. *)
Theorem GenerateFromOptionString_without_type (options : string)
    (config : Ctx.PGeneratorConfig HPFloat) :
  Forall (fun pair => OptionString.key_of pair <> "type") (OptionStringMore.pairs_of options) ->
  GetGeneratorTypeMap !! "" = None ->
  OptionString.GenericGenerateFromOptionString GetGeneratorTypeMap options config
  = (config, Throw (runtime_error "invalid generator type")).
Proof.
  intros Hall Hmap. unfold OptionString.GenericGenerateFromOptionString.
  assert (Hnone : OptionString.ParseOptionString options !! "type" = None).
  { unfold OptionString.ParseOptionString. rewrite foldl_step_other by exact Hall.
    apply lookup_empty. }
  unfold OptionString.subscript. rewrite Hnone. simpl. rewrite Hmap. reflexivity.
Qed.

(** X19. The default of [n] is computed before the key "n" is looked up:
    when the value of "N" is no number, the exception of [std::stoll]
    leaves the call, whether "n" is given or not, and of the configuration
    only [generator] has been written. *)
Theorem GenerateFromOptionString_eager_default (options second : string)
    (config : Ctx.PGeneratorConfig HPFloat) (type : Ctx.GeneratorType) (e : exn) :
  let parsed := OptionString.ParseOptionString options in
  GetGeneratorTypeMap !! (OptionString.subscript parsed "type").1 = Some type ->
  parsed !! "N" = Some second ->
  OptionString.stoll second = Throw e ->
  OptionString.GenericGenerateFromOptionString GetGeneratorTypeMap options config
  = (Ctx.set_generator type config, Throw e).
Proof.
  intros parsed Htype HN Hstoll. unfold OptionString.GenericGenerateFromOptionString.
  fold parsed. rewrite Htype.
  rewrite (run_cons_Ok _ _ config (Ctx.set_generator type config)) by reflexivity.
  assert (HsN : OptionString.get_sint_or_default (OptionString.subscript parsed "type").2 "N" 0
                = Throw e).
  { unfold OptionString.get_sint_or_default.
    rewrite subscript_other by discriminate. rewrite HN, Hstoll. reflexivity. }
  apply run_cons_Throw. unfold OptionString.assign. rewrite HsN. reflexivity.
Qed.

End OptionStringMoreFacts.

(** ** What [std::stoll] reads *)

Lemma is_digit_cases d :
  Numeral.is_digit d ->
  d = 0 \/ d = 1 \/ d = 2 \/ d = 3 \/ d = 4 \/ d = 5 \/ d = 6 \/ d = 7 \/ d = 8 \/ d = 9.
Proof. unfold Numeral.is_digit. lia. Qed.

Ltac digit_cases H :=
  apply is_digit_cases in H;
  repeat (destruct H as [H | H]; [ subst | ]); [ .. | subst ].

Lemma digit_value_digit_char d :
  Numeral.is_digit d -> OptionString.digit_value (Numeral.digit_char d) = Some d.
Proof. intros Hd. digit_cases Hd; reflexivity. Qed.

Lemma digit_char_plain d :
  Numeral.is_digit d ->
  OptionString.isspace (Numeral.digit_char d) = false
  /\ Ascii.eqb (Numeral.digit_char d) "-"%char = false
  /\ Ascii.eqb (Numeral.digit_char d) "+"%char = false.
Proof. intros Hd. digit_cases Hd; repeat split. Qed.

Lemma read_digits_rest (rest : string) (acc : option Z) :
  Numeral.starts_with_digit rest = false -> OptionString.read_digits rest acc = acc.
Proof.
  intros Hrest. destruct rest as [| c rest]; [ reflexivity | ].
  simpl in *. destruct (OptionString.digit_value c); [ discriminate Hrest | reflexivity ].
Qed.

Lemma read_digits_digits (digits : list Z) (rest : string) (acc : option Z) :
  Forall Numeral.is_digit digits -> Numeral.starts_with_digit rest = false ->
  OptionString.read_digits (Numeral.digits_string digits +:+ rest) acc
  = match digits with
    | [] => acc
    | _ :: _ => Some (foldl (fun a d => 10 * a + d) (default 0 acc) digits)
    end.
Proof.
  intros Hall Hrest. revert acc. induction Hall as [| d digits Hd Hall IH]; intros acc.
  - apply read_digits_rest. exact Hrest.
  - cbn [Numeral.digits_string]. rewrite string_app_cons. cbn [OptionString.read_digits].
    rewrite digit_value_digit_char by exact Hd. rewrite IH.
    destruct digits; reflexivity.
Qed.

Lemma skip_space_app (ws str : string) :
  Numeral.all_space ws = true ->
  (forall c str', str = String c str' -> OptionString.isspace c = false) ->
  OptionString.skip_space (ws +:+ str) = str.
Proof.
  intros Hws Hstr. induction ws as [| c ws IH].
  - change ("" +:+ str) with str. destruct str as [| c str']; [ reflexivity | ].
    simpl. rewrite (Hstr c str' eq_refl). reflexivity.
  - rewrite string_app_cons. simpl in *. apply andb_true_iff in Hws as [Hc Hws].
    rewrite Hc. apply IH. exact Hws.
Qed.

(** [std::stoll] reads white space, an optional sign and decimal digits,
    and ignores what follows the digits. *)
Lemma stoll_decimal (ws rest : string) (s : Numeral.sign) (digits : list Z) :
  Numeral.all_space ws = true ->
  digits <> [] -> Forall Numeral.is_digit digits ->
  Numeral.starts_with_digit rest = false ->
  let v := Numeral.signed s (Numeral.decimal_value digits) in
  OptionString.stoll (ws +:+ Numeral.sign_string s +:+ Numeral.digits_string digits +:+ rest)
  = if (SSInt_min <=? v) && (v <=? SSInt_max) then Ok v
    else Throw (out_of_range "stoll").
Proof.
  intros Hws Hne Hall Hrest v. unfold OptionString.stoll.
  destruct digits as [| d digits]; [ contradiction | ].
  pose proof (Forall_inv Hall) as Hd.
  destruct (digit_char_plain d Hd) as (Hsp & Hminus & Hplus).
  rewrite skip_space_app.
  2: exact Hws.
  2:{ intros c str' Heq. destruct s; cbn [Numeral.sign_string Numeral.digits_string] in Heq.
      - change ("" +:+ ?x) with x in Heq. rewrite string_app_cons in Heq.
        inversion Heq; subst. exact Hsp.
      - inversion Heq; subst. reflexivity.
      - inversion Heq; subst. reflexivity. }
  assert (Hread : OptionString.read_digits
                    (Numeral.digits_string (d :: digits) +:+ rest) None
                  = Some (Numeral.decimal_value (d :: digits))).
  { rewrite read_digits_digits by assumption. reflexivity. }
  destruct s; cbn [Numeral.sign_string].
  - change ("" +:+ ?x) with x. cbn [Numeral.digits_string] in *.
    rewrite string_app_cons in *.
    replace (match String (Numeral.digit_char d) (Numeral.digits_string digits +:+ rest) with
             | String "-"%char str' => (true, str')
             | String "+"%char str' => (false, str')
             | _ => (false, String (Numeral.digit_char d) (Numeral.digits_string digits +:+ rest))
             end)
      with (false, String (Numeral.digit_char d) (Numeral.digits_string digits +:+ rest)).
    + cbn [fst snd]. rewrite Hread. reflexivity.
    + clear -Hd. digit_cases Hd; reflexivity.
  - change ("+" +:+ ?x) with (String "+"%char x). cbn [fst snd]. rewrite Hread. reflexivity.
  - change ("-" +:+ ?x) with (String "-"%char x). cbn [fst snd]. rewrite Hread. reflexivity.
Qed.

(** Without a digit after the white space and the optional sign
    [std::stoll] throws [std::invalid_argument]. *)
Lemma stoll_without_digits (ws rest : string) (s : Numeral.sign) :
  Numeral.all_space ws = true ->
  Numeral.starts_with_digit rest = false ->
  (s = Numeral.NoSign ->
   Numeral.starts_with_sign rest = false /\ Numeral.starts_with_space rest = false) ->
  OptionString.stoll (ws +:+ Numeral.sign_string s +:+ rest)
  = Throw (invalid_argument "stoll").
Proof.
  intros Hws Hrest Hplain. unfold OptionString.stoll.
  rewrite skip_space_app.
  2: exact Hws.
  2:{ intros c str' Heq. destruct s; cbn [Numeral.sign_string] in Heq.
      - change ("" +:+ rest) with rest in Heq. destruct (Hplain eq_refl) as [_ Hsp].
        subst rest. exact Hsp.
      - inversion Heq; subst. reflexivity.
      - inversion Heq; subst. reflexivity. }
  destruct s; cbn [Numeral.sign_string].
  - change ("" +:+ rest) with rest. destruct (Hplain eq_refl) as [Hsign _].
    destruct rest as [| c rest]; [ reflexivity | ].
    simpl in Hsign. apply orb_false_iff in Hsign as [Hm Hp].
    replace (match String c rest with
             | String "-"%char str' => (true, str')
             | String "+"%char str' => (false, str')
             | _ => (false, String c rest)
             end) with (false, String c rest).
    + cbn [fst snd]. rewrite read_digits_rest by exact Hrest. reflexivity.
    + destruct c as [[] [] [] [] [] [] [] []]; try reflexivity; discriminate.
  - change ("+" +:+ rest) with (String "+"%char rest). cbn [fst snd].
    rewrite read_digits_rest by exact Hrest. reflexivity.
  - change ("-" +:+ rest) with (String "-"%char rest). cbn [fst snd].
    rewrite read_digits_rest by exact Hrest. reflexivity.
Qed.

(** X21. A numeric option whose value is white space, an optional sign,
    decimal digits and any rest that does not start with a digit is read
    as the signed number the digits denote, converted to [SInt] (a negative
    number wraps around); if the number is no [long long],
    [std::out_of_range] is thrown. The default is used only when the key is
    absent. *)
Theorem get_sint_or_default_decimal (options : gmap string string) (option : string)
    (default_value : Z) (ws rest : string) (s : Numeral.sign) (digits : list Z) :
  options !! option
  = Some (ws +:+ Numeral.sign_string s +:+ Numeral.digits_string digits +:+ rest) ->
  Numeral.all_space ws = true ->
  digits <> [] -> Forall Numeral.is_digit digits ->
  Numeral.starts_with_digit rest = false ->
  let v := Numeral.signed s (Numeral.decimal_value digits) in
  OptionString.get_sint_or_default options option default_value
  = if (SSInt_min <=? v) && (v <=? SSInt_max)
    then Ok (if v <? 0 then v + SInt_modulus else v)
    else Throw (out_of_range "stoll").
Proof.
  intros Hlookup Hws Hne Hall Hrest v. unfold OptionString.get_sint_or_default.
  rewrite Hlookup. rewrite (stoll_decimal ws rest s digits Hws Hne Hall Hrest). fold v.
  destruct ((SSInt_min <=? v) && (v <=? SSInt_max)) eqn:Hrange; [ | reflexivity ].
  simpl. f_equal. apply andb_true_iff in Hrange as [Hlo Hhi].
  apply Z.leb_le in Hlo, Hhi. unfold SSInt_min in Hlo. unfold SSInt_max in Hhi.
  unfold to_SInt, wrap64. rewrite SInt_modulus_eq.
  change (2 ^ 63) with 9223372036854775808 in *.
  destruct (Z.ltb_spec v 0) as [Hneg | Hpos].
  - symmetry. apply (Z.mod_unique v _ (-1)); lia.
  - apply Z.mod_small. lia.
Qed.

Lemma get_sint_or_default_decimal_witness :
  OptionString.get_sint_or_default (OptionString.ParseOptionString "k= -1;n=7") "k" 0
  = Ok 18446744073709551615.
Proof.
  exact (get_sint_or_default_decimal (OptionString.ParseOptionString "k= -1;n=7") "k" 0
           " " "" Numeral.Minus [1] eq_refl eq_refl ltac:(discriminate)
           ltac:(repeat constructor; unfold Numeral.is_digit; lia) eq_refl).
Defined.

(** X22. A numeric option whose value has no digit after the white space
    and the optional sign, as in "k=" or "k=abc", makes
    [get_sint_or_default] throw [std::invalid_argument], whatever the
    default is. *)
Theorem get_sint_or_default_without_digits (options : gmap string string) (option : string)
    (default_value : Z) (ws rest : string) (s : Numeral.sign) :
  options !! option = Some (ws +:+ Numeral.sign_string s +:+ rest) ->
  Numeral.all_space ws = true ->
  Numeral.starts_with_digit rest = false ->
  (s = Numeral.NoSign ->
   Numeral.starts_with_sign rest = false /\ Numeral.starts_with_space rest = false) ->
  OptionString.get_sint_or_default options option default_value
  = Throw (invalid_argument "stoll").
Proof.
  intros Hlookup Hws Hrest Hplain. unfold OptionString.get_sint_or_default.
  rewrite Hlookup. rewrite (stoll_without_digits ws rest s Hws Hrest Hplain). reflexivity.
Qed.

Lemma get_sint_or_default_without_digits_witness :
  OptionString.get_sint_or_default (OptionString.ParseOptionString "n=7;k=") "k" 5
  = Throw (invalid_argument "stoll").
Proof.
  exact (get_sint_or_default_without_digits (OptionString.ParseOptionString "n=7;k=") "k" 5
           "" "" Numeral.NoSign eq_refl eq_refl eq_refl ltac:(intros _; split; reflexivity)).
Defined.

Section Overwrite.
Context {HPFloat : Type} `{OptionString.FloatOps HPFloat}.
Variable GetGeneratorTypeMap : gmap string Ctx.GeneratorType.

End Overwrite.

(** ** The grid calls of the library *)

Section GridFacts.
Context {HPFloat : Type}.

(** X23. [GenerateGrid2D_N] asks for a square grid whose side is the
    integer square root of [n]: the grid has at most [n] vertices, and [n]
    of them exactly when [n] is a perfect square; [m] is reset to zero and
    no coordinates are requested. *)
Theorem GenerateGrid2D_N_vertices (config : Ctx.PGeneratorConfig HPFloat) (n : Z)
    (p : HPFloat) (periodic : bool) :
  0 <= n < 2 ^ 52 ->
  let config' := KaGenGrid.GenerateGrid2D_N config n p periodic in
  let vertices := Ctx.grid_x config' * Ctx.grid_y config' in
  Ctx.generator config' = Ctx.GRID_2D
  /\ Ctx.grid_x config' = Ctx.grid_y config'
  /\ vertices <= n < (Ctx.grid_x config' + 1) * (Ctx.grid_y config' + 1)
  /\ (vertices = n <-> exists root, 0 <= root /\ root * root = n)
  /\ Ctx.m config' = 0 /\ Ctx.coordinates config' = false.
Proof.
  intros Hn config' vertices.
  pose proof (Z.sqrt_spec n ltac:(lia)) as Hs. unfold Z.succ in Hs.
  pose proof (Z.sqrt_nonneg n) as H0.
  unfold vertices, config'. cbn.
  repeat apply conj; try reflexivity; try lia.
  - intros Heq. exists (Z.sqrt n). split; [ exact H0 | exact Heq ].
  - intros (root & Hr & <-). rewrite Z.sqrt_square by exact Hr. reflexivity.
Qed.
End GridFacts.

Lemma GenerateGrid2D_N_vertices_witness :
  let config' := KaGenGrid.GenerateGrid2D_N (Facade.library_config 0 false) 10 tt false in
  Ctx.grid_x config' * Ctx.grid_y config' <= 10.
Proof.
  intros config'.
  refine (proj1 (proj1 (proj2 (proj2 (GenerateGrid2D_N_vertices
            (Facade.library_config 0 false) 10 tt false _))))).
  vm_compute. split; [ discriminate | reflexivity ].
Defined.

(** ** The redistribution and the verdict of [chkgraph] *)

Lemma MPI_Allreduce_MAX_bound (mine bound : Z) (peers : list Z) :
  mine <= bound -> Forall (fun a => a <= bound) peers ->
  ChkGraphMain.MPI_Allreduce_MAX mine peers <= bound.
Proof.
  intros Hm Hall. unfold ChkGraphMain.MPI_Allreduce_MAX.
  induction Hall as [| a peers Ha Hall IH]; simpl; lia.
Qed.

Lemma MPI_Allreduce_MAX_ge (mine : Z) (peers : list Z) :
  mine <= ChkGraphMain.MPI_Allreduce_MAX mine peers.
Proof.
  unfold ChkGraphMain.MPI_Allreduce_MAX. induction peers as [| a peers IH]; simpl; lia.
Qed.

Lemma local_actual_n_last (n : Z) (edges : Edgelist) :
  ChkGraphMain.local_actual_n n edges
  = match last edges with
    | Some e => Z.max n (Z.max e.1 e.2)
    | None => 0
    end.
Proof.
  unfold ChkGraphMain.local_actual_n.
  destruct edges as [| e edges] using rev_ind; [ reflexivity | ].
  rewrite foldl_app, last_snoc. reflexivity.
Qed.

(** X24. The vertex range of the redistribution in [chkgraph]: the local
    [actual_n] is taken from the last edge alone; when no process has an
    edge every process gets the empty range [(0, 0)], whatever [n] is;
    when the last local edge and the values of the other processes do not
    exceed [n], the range is [ComputeRange(n, size, rank)]. *)
Theorem redistribution_range_spec (n size rank : Z) (edges : Edgelist) (peers : list Z) :
  is_SInt n -> 1 <= size < PEID_bound -> 0 <= rank < size ->
  (edges = [] -> Forall (fun a => a = 0) peers ->
     ChkGraphMain.redistribution_range n size rank edges peers = (0, 0))
  /\ (forall e, last edges = Some e -> e.1 <= n -> e.2 <= n ->
        Forall (fun a => a <= n) peers ->
        ChkGraphMain.redistribution_range n size rank edges peers
        = ChkGraph.ComputeRange n size rank)
  /\ (forall e, last edges = Some e ->
        ChkGraphMain.local_actual_n n edges = Z.max n (Z.max e.1 e.2)).
Proof.
  intros Hn Hsize Hrank. repeat apply conj.
  - intros -> Hpeers. unfold ChkGraphMain.redistribution_range.
    assert (Hz : ChkGraphMain.MPI_Allreduce_MAX (ChkGraphMain.local_actual_n n []) peers = 0).
    { unfold ChkGraphMain.MPI_Allreduce_MAX. simpl.
      induction Hpeers as [| a peers -> _ IH]; simpl; [ reflexivity | rewrite IH; reflexivity ]. }
    rewrite Hz. cbv zeta.
    rewrite (ComputeRange_boundary 0 size) by (try exact Hsize; try exact Hrank; in_SInt lia).
    unfold ChkGraph.boundary. rewrite Z.div_0_l, Z.mod_0_l by lia. f_equal; lia.
  - intros e Hlast H1 H2 Hpeers. unfold ChkGraphMain.redistribution_range. cbv zeta.
    f_equal. rewrite local_actual_n_last, Hlast.
    apply Z.le_antisymm.
    + apply MPI_Allreduce_MAX_bound; [ lia | exact Hpeers ].
    + etransitivity; [ | apply MPI_Allreduce_MAX_ge ]. lia.
  - intros e Hlast. rewrite local_actual_n_last, Hlast. reflexivity.
Qed.

Lemma redistribution_range_spec_witness :
  ChkGraphMain.redistribution_range 10 4 1 [] [0; 0; 0] = (0, 0).
Proof.
  refine (proj1 (redistribution_range_spec 10 4 1 [] [0; 0; 0] _ _ _) eq_refl _).
  - vm_compute. split; [ discriminate | reflexivity ].
  - vm_compute. split; [ discriminate | reflexivity ].
  - lia.
  - repeat constructor.
Defined.


(** ** Examples for the option string *)

Lemma GenerateFromOptionString2D_coordinates_witness :
  Ctx.coordinates
    (OptionStringMore.GenerateFromOptionString2D (H := OptionString.UnitFloat)
       OptionString.example_type_map "type=rgg2d;n=16;coordinates=0"
       (Facade.library_config 0 false)).1
  = true.
Proof.
  refine (proj2 (GenerateFromOptionString2D_coordinates (H := OptionString.UnitFloat)
                   OptionString.example_type_map "type=rgg2d;n=16;coordinates=0"
                   (Facade.library_config 0 false) _) _).
  reflexivity.
Defined.

Lemma GenerateFromOptionString_without_type_witness :
  OptionString.GenericGenerateFromOptionString (H := OptionString.UnitFloat)
    OptionString.example_type_map "n=16;periodic" (Facade.library_config 0 false)
  = (Facade.library_config 0 false, Throw (runtime_error "invalid generator type")).
Proof.
  apply (GenerateFromOptionString_without_type (H := OptionString.UnitFloat)).
  - repeat constructor; discriminate.
  - reflexivity.
Defined.

Lemma GenerateFromOptionString_eager_default_witness :
  OptionString.GenericGenerateFromOptionString (H := OptionString.UnitFloat)
    OptionString.example_type_map "type=rgg2d;N=abc;n=16" (Facade.library_config 0 false)
  = (Ctx.set_generator Ctx.RGG_2D (Facade.library_config 0 false),
     Throw (invalid_argument "stoll")).
Proof.
  apply (GenerateFromOptionString_eager_default (H := OptionString.UnitFloat)
           OptionString.example_type_map "type=rgg2d;N=abc;n=16" "abc").
  - reflexivity.
  - reflexivity.
  - reflexivity.
Defined.

